(** * GeoGenius heatmap engine: viewport, clustering, density field, gestures

    A shallow embedding of the interactive heatmap of
    [src/components/Heatmap.tsx], of the handlers of [src/App.tsx] that own
    the target descriptions and the uploaded files, and of the filters of
    [src/components/ResultsDashboard.tsx] that choose the targets the
    heatmap is given, together with the properties the specification states
    about them and further properties read off the code.

    Numbers.  The source computes with JavaScript numbers.  The embedding
    reads every numeric expression over the real numbers [R]: [Math.sqrt] is
    [sqrt], [Math.exp] is [exp], [Math.pow (v, 2)] is [v ^ 2], [Math.abs] is
    [Rabs], [Math.max]/[Math.min] are [Rmax]/[Rmin].  Rounding is therefore
    not modelled there.  Where the special values (Infinity, NaN) are at
    stake, on a degenerate or extreme container, the viewport computations
    are modelled a second time, in [Module Ext], over the reals extended by
    the special values, with every operation rounded and overflowing as in
    binary64 arithmetic.  Identifiers of target points are integers ([Z]).  *)

From Stdlib Require Import Reals Lra ZArith.
From stdpp Require Import gmap list sorting strings pretty.

Open Scope R_scope.

(* stdpp's set_solver clears hypotheses by name; the notice it prints when a
   name is absent carries no information. *)
#[global] Set Warnings "-clear-no-such-hyp".

(** Comparisons on [R] as stdpp decisions, so that the source's [if]s read
    [if decide (a <= b) then _ else _]. *)
#[global] Instance Rle_decision (a b : R) : Decision (a <= b) := Rle_dec a b.
#[global] Instance Rlt_decision (a b : R) : Decision (a < b) := Rlt_dec a b.
#[global] Instance Rgt_decision (a b : R) : Decision (a > b) := Rgt_dec a b.
#[global] Instance Req_decision : EqDecision R := Req_dec_T.

(** ** Data model ([types.ts], [Heatmap.tsx] lines 5-18) *)

Module TargetArea.
Record t := mk {
  id : Z;
  x : R;                      (* 0-100 *)
  y : R;                      (* 0-100 *)
  probability : R;            (* 0-1 *)
  description : string;
  reasoning : option string
}.
End TargetArea.

Module Cluster.
Record t := mk {
  id : string;
  x : R;
  y : R;
  points : list TargetArea.t;
  isCluster : bool
}.
End Cluster.

Module ViewBox.
Record t := mk { x : R; y : R; w : R; h : R }.
End ViewBox.

(** ** Clustering ([Heatmap.tsx] lines 211-248) *)

Section Clustering.

(** [[...targetAreas].sort((a, b) => a.x - b.x)]: ascending by [x].
    [Array.prototype.sort] is stable, and a stable sort has exactly one
    result; it is computed here by stable insertion, an element going in
    front of the first element whose [x] is not smaller. *)
Fixpoint insertByX (p : TargetArea.t) (l : list TargetArea.t) : list TargetArea.t :=
  match l with
  | [] => [p]
  | q :: l' =>
      if decide (TargetArea.x p <= TargetArea.x q) then p :: q :: l'
      else q :: insertByX p l'
  end.

Definition sortByX (targetAreas : list TargetArea.t) : list TargetArea.t :=
  foldr insertByX [] targetAreas.

(** [Math.sqrt(Math.pow(neighbor.x - p.x, 2) + Math.pow(neighbor.y - p.y, 2))] *)
Definition dist (neighbor p : TargetArea.t) : R :=
  sqrt ((TargetArea.x neighbor - TargetArea.x p) ^ 2
        + (TargetArea.y neighbor - TargetArea.y p) ^ 2).

(** The inner loop, [for (let j = i + 1; ...)], over the points after the
    seed [p]; it threads [clusterPoints] and the [used] set of ids. *)
Fixpoint scanNeighbors (threshold : R) (p : TargetArea.t)
    (rest : list TargetArea.t)
    (clusterPoints : list TargetArea.t) (used : gset Z)
  : list TargetArea.t * gset Z :=
  match rest with
  | [] => (clusterPoints, used)
  | neighbor :: rest' =>
      if decide (TargetArea.id neighbor ∈ used)
      then scanNeighbors threshold p rest' clusterPoints used
      else if decide (dist neighbor p <= threshold)
      then scanNeighbors threshold p rest'
             (clusterPoints ++ [neighbor]) ({[TargetArea.id neighbor]} ∪ used)
      else scanNeighbors threshold p rest' clusterPoints used
  end.

(** [clusterPoints.reduce((sum, c) => sum + c.x, 0) / clusterPoints.length] *)
Definition avgX (clusterPoints : list TargetArea.t) : R :=
  fold_left (fun sum c => sum + TargetArea.x c) clusterPoints 0
  / INR (length clusterPoints).

Definition avgY (clusterPoints : list TargetArea.t) : R :=
  fold_left (fun sum c => sum + TargetArea.y c) clusterPoints 0
  / INR (length clusterPoints).

(** The object pushed on [result] for seed [p]. *)
Definition mkCluster (p : TargetArea.t) (clusterPoints : list TargetArea.t) : Cluster.t :=
  {| Cluster.id :=
       if decide (1 < length clusterPoints)%nat
       then "cluster-" +:+ pretty (TargetArea.id p)
       else "point-" +:+ pretty (TargetArea.id p);
     Cluster.x := avgX clusterPoints;
     Cluster.y := avgY clusterPoints;
     Cluster.points := clusterPoints;
     Cluster.isCluster := bool_decide (1 < length clusterPoints)%nat |}.

(** The outer loop, [for (let i = 0; ...)]; the clusters come out in the
    order they are pushed. *)
Fixpoint clusterLoop (threshold : R) (sortedPoints : list TargetArea.t)
    (used : gset Z) : list Cluster.t :=
  match sortedPoints with
  | [] => []
  | p :: rest =>
      if decide (TargetArea.id p ∈ used)
      then clusterLoop threshold rest used
      else
        let '(clusterPoints, used') :=
          scanNeighbors threshold p rest [p] ({[TargetArea.id p]} ∪ used) in
        mkCluster p clusterPoints :: clusterLoop threshold rest used'
  end.

(** [clusters], a function of [targetAreas] and [viewBox.w]. *)
Definition clusters (targetAreas : list TargetArea.t) (viewBox_w : R) : list Cluster.t :=
  let threshold := viewBox_w * 0.08 in
  clusterLoop threshold (sortByX targetAreas) ∅.

End Clustering.

(** ** Viewport model and gestures ([Heatmap.tsx] lines 26-44, 94-208, 250-280) *)

(** The fields of a pointer event that the handlers read. *)
Module MouseEvent.
Record t := mk { button : Z; clientX : R; clientY : R }.
End MouseEvent.

(** A wheel event, with the left/top of [e.currentTarget.getBoundingClientRect()]. *)
Module WheelEvent.
Record t := mk { deltaY : R; clientX : R; clientY : R; rectLeft : R; rectTop : R }.
End WheelEvent.

(** The component's state: the [useState] cells and the [dragDistanceRef]
    the handlers below read and write.  Events are handled one at a time,
    each on the state the previous one left: the [viewBox] a handler reads
    from its render and the [prev] its state updater receives are the same
    rectangle. *)
Module State.
Record t := mk {
  selectedTargetId : option Z;
  viewBox : ViewBox.t;
  isDragging : bool;
  dragStart : R * R;
  dragDistance : R              (* dragDistanceRef.current *)
}.
End State.

(** [Math.sign] *)
Definition sign (v : R) : R :=
  if decide (v > 0) then 1 else if decide (v < 0) then -1 else 0.

Section Viewport.

(** The props [width] and [height] of the component. *)
Variables width height : R.

Definition aspect : R := width / height.

Definition getBaseViewBox : ViewBox.t :=
  let w := if decide (aspect > 1) then 100 * aspect else 100 in
  let h := if decide (aspect > 1) then 100 else 100 / aspect in
  {| ViewBox.x := 50 - w / 2; ViewBox.y := 50 - h / 2; ViewBox.w := w; ViewBox.h := h |}.

(** Pixel to data space, lines 111-112:
    [viewBox.x + (mx / width) * viewBox.w]. *)
Definition svgX (viewBox : ViewBox.t) (mx : R) : R :=
  ViewBox.x viewBox + (mx / width) * ViewBox.w viewBox.
Definition svgY (viewBox : ViewBox.t) (my : R) : R :=
  ViewBox.y viewBox + (my / height) * ViewBox.h viewBox.

(** The state updater of [handleWheel], lines 114-143. *)
Definition wheelViewBox (factor mx my : R) (prev : ViewBox.t) : ViewBox.t :=
  let newW := ViewBox.w prev * factor in
  let newH := ViewBox.h prev * factor in
  let base := getBaseViewBox in
  (* Limit max zoom out to base view *)
  let '(newW, newH) :=
    if decide (newW > ViewBox.w base) then (ViewBox.w base, ViewBox.h base)
    else (newW, newH) in
  (* Limit max zoom in *)
  let '(newW, newH) :=
    if decide (newW < 2) then (2, 2 / aspect) else (newW, newH) in
  (* Scale around mouse point *)
  let newX := svgX prev mx - (mx / width) * newW in
  let newY := svgY prev my - (my / height) * newH in
  let bufferX := ViewBox.w base * 0.5 in
  let bufferY := ViewBox.h base * 0.5 in
  let newX := if decide (newX < ViewBox.x base - bufferX)
              then ViewBox.x base - bufferX else newX in
  let newY := if decide (newY < ViewBox.y base - bufferY)
              then ViewBox.y base - bufferY else newY in
  let newX := if decide (newX + newW > ViewBox.x base + ViewBox.w base + bufferX)
              then ViewBox.x base + ViewBox.w base + bufferX - newW else newX in
  let newY := if decide (newY + newH > ViewBox.y base + ViewBox.h base + bufferY)
              then ViewBox.y base + ViewBox.h base + bufferY - newH else newY in
  (* Snap to base if very close *)
  if decide (Rabs (newW - ViewBox.w base) < 0.1) then base
  else {| ViewBox.x := newX; ViewBox.y := newY; ViewBox.w := newW; ViewBox.h := newH |}.

Definition handleWheel (e : WheelEvent.t) (st : State.t) : State.t :=
  let zoomSpeed := 0.001 in
  let dy := WheelEvent.deltaY e in
  let delta := sign dy * Rmin (Rabs dy) 100 in
  let factor := 1 + delta * zoomSpeed in
  let mx := WheelEvent.clientX e - WheelEvent.rectLeft e in
  let my := WheelEvent.clientY e - WheelEvent.rectTop e in
  {| State.selectedTargetId := State.selectedTargetId st;
     State.viewBox := wheelViewBox factor mx my (State.viewBox st);
     State.isDragging := State.isDragging st;
     State.dragStart := State.dragStart st;
     State.dragDistance := State.dragDistance st |}.

Definition handleMouseDown (e : MouseEvent.t) (st : State.t) : State.t :=
  if decide (MouseEvent.button e ≠ 0%Z) then st
  else
    {| State.selectedTargetId := State.selectedTargetId st;
       State.viewBox := State.viewBox st;
       State.isDragging := true;
       State.dragStart := (MouseEvent.clientX e, MouseEvent.clientY e);
       State.dragDistance := 0 |}.

Definition handleMouseMove (e : MouseEvent.t) (st : State.t) : State.t :=
  if negb (State.isDragging st) then st
  else
    let dx := MouseEvent.clientX e - fst (State.dragStart st) in
    let dy := MouseEvent.clientY e - snd (State.dragStart st) in
    let dragDistance := State.dragDistance st + (Rabs dx + Rabs dy) in
    if decide (dx = 0 ∧ dy = 0) then
      {| State.selectedTargetId := State.selectedTargetId st;
         State.viewBox := State.viewBox st;
         State.isDragging := State.isDragging st;
         State.dragStart := State.dragStart st;
         State.dragDistance := dragDistance |}
    else
      let prev := State.viewBox st in
      let scaleX := ViewBox.w prev / width in
      let scaleY := ViewBox.h prev / height in
      let newX := ViewBox.x prev - dx * scaleX in
      let newY := ViewBox.y prev - dy * scaleY in
      (* No strict boundary check during drag *)
      {| State.selectedTargetId := State.selectedTargetId st;
         State.viewBox :=
           {| ViewBox.x := newX; ViewBox.y := newY;
              ViewBox.w := ViewBox.w prev; ViewBox.h := ViewBox.h prev |};
         State.isDragging := State.isDragging st;
         State.dragStart := (MouseEvent.clientX e, MouseEvent.clientY e);
         State.dragDistance := dragDistance |}.

Definition handleMouseUp (st : State.t) : State.t :=
  {| State.selectedTargetId := State.selectedTargetId st;
     State.viewBox := State.viewBox st;
     State.isDragging := false;
     State.dragStart := State.dragStart st;
     State.dragDistance := State.dragDistance st |}.

Definition setSelectedTargetId (sel : option Z) (st : State.t) : State.t :=
  {| State.selectedTargetId := sel;
     State.viewBox := State.viewBox st;
     State.isDragging := State.isDragging st;
     State.dragStart := State.dragStart st;
     State.dragDistance := State.dragDistance st |}.

Definition setViewBox (vb : ViewBox.t) (st : State.t) : State.t :=
  {| State.selectedTargetId := State.selectedTargetId st;
     State.viewBox := vb;
     State.isDragging := State.isDragging st;
     State.dragStart := State.dragStart st;
     State.dragDistance := State.dragDistance st |}.

Definition handleContainerClick (st : State.t) : State.t :=
  if decide (State.dragDistance st < 5) then setSelectedTargetId None st else st.

(** The state updater of [handleZoom], lines 189-205. *)
Definition zoomViewBox (factor : R) (prev : ViewBox.t) : ViewBox.t :=
  let base := getBaseViewBox in
  let newW := ViewBox.w prev * factor in
  let newH := ViewBox.h prev * factor in
  if decide (newW > ViewBox.w base) then base
  else if decide (newW < 2) then prev
  else
    let dW := ViewBox.w prev - newW in
    let dH := ViewBox.h prev - newH in
    let newX := ViewBox.x prev + dW / 2 in
    let newY := ViewBox.y prev + dH / 2 in
    {| ViewBox.x := newX; ViewBox.y := newY; ViewBox.w := newW; ViewBox.h := newH |}.

Definition handleZoom (factor : R) (st : State.t) : State.t :=
  setViewBox (zoomViewBox factor (State.viewBox st)) st.

Definition resetZoom (st : State.t) : State.t := setViewBox getBaseViewBox st.

(** The bounding box accumulated by [cluster.points.forEach], lines
    257-263, as [(minX, maxX, minY, maxY)], from [(100, 0, 100, 0)]. *)
Definition boundsStep (acc : R * R * R * R) (p : TargetArea.t) : R * R * R * R :=
  let '(minX, maxX, minY, maxY) := acc in
  let minX := if decide (TargetArea.x p < minX) then TargetArea.x p else minX in
  let maxX := if decide (TargetArea.x p > maxX) then TargetArea.x p else maxX in
  let minY := if decide (TargetArea.y p < minY) then TargetArea.y p else minY in
  let maxY := if decide (TargetArea.y p > maxY) then TargetArea.y p else maxY in
  (minX, maxX, minY, maxY).

Definition clusterBounds (points : list TargetArea.t) : R * R * R * R :=
  fold_left boundsStep points (100, 0, 100, 0).

(** The rectangle [handleClusterClick] sets for a multi-member cluster,
    lines 265-278.  [v || 10] is [10] when [v] is [0]. *)
Definition drillDownViewBox (points : list TargetArea.t) : ViewBox.t :=
  let '(minX, maxX, minY, maxY) := clusterBounds points in
  let clusterW := maxX - minX in
  let clusterH := maxY - minY in
  let pad := if decide (Rmax clusterW clusterH * 0.5 = 0) then 10
             else Rmax clusterW clusterH * 0.5 in
  let targetW := Rmax (clusterW + pad) 10 in
  let targetH := Rmax (clusterH + pad) 10 in
  let dim := Rmax targetW targetH in
  let targetX := (minX + maxX) / 2 - dim / 2 in
  let targetY := (minY + maxY) / 2 - dim / 2 in
  (* Adjust aspect ratio of target view *)
  let '(targetW, targetH) :=
    if decide (aspect > 1) then (targetH * aspect, targetH)
    else (targetW, targetW / aspect) in
  {| ViewBox.x := targetX; ViewBox.y := targetY; ViewBox.w := targetW; ViewBox.h := targetH |}.

(** [handleClusterClick]; [e.stopPropagation()] is accounted for in
    [click] below.  [cluster.points[0]] of an empty member list would
    throw, leaving the state as it is. *)
Definition handleClusterClick (cluster : Cluster.t) (st : State.t) : State.t :=
  if decide (State.dragDistance st > 5) then st
  else if negb (Cluster.isCluster cluster) then
    match Cluster.points cluster with
    | p :: _ => setSelectedTargetId (Some (TargetArea.id p)) st
    | [] => st
    end
  else setViewBox (drillDownViewBox (Cluster.points cluster)) st.

(** A click event.  On a cluster's [<g>] element the cluster's handler
    runs and stops propagation, so the container's [onClick] does not
    run; anywhere else only the container's handler runs. *)
Definition click (target : option Cluster.t) (st : State.t) : State.t :=
  match target with
  | Some cluster => handleClusterClick cluster st
  | None => handleContainerClick st
  end.

End Viewport.

(** ** Density field ([Heatmap.tsx] lines 283-315) *)

Module Cell.
Record t := mk { x : R; y : R; w : R; h : R; intensity : R }.
End Cell.

Section Density.

Definition gridSize : nat := 30.

(** The [forEach] accumulation of [intensity] for the cell centre [(cx, cy)]. *)
Definition influence (cx cy : R) (target : TargetArea.t) : R :=
  let dist := sqrt ((cx - TargetArea.x target) ^ 2 + (cy - TargetArea.y target) ^ 2) in
  TargetArea.probability target * exp (- (dist * dist) / 100).

Definition cellIntensity (targetAreas : list TargetArea.t) (cx cy : R) : R :=
  let intensity :=
    fold_left (fun intensity target => intensity + influence cx cy target) targetAreas 0 in
  Rmin intensity 1.

Definition cell (targetAreas : list TargetArea.t) (viewBox : ViewBox.t) (i j : nat) : Cell.t :=
  let cellW := ViewBox.w viewBox / INR gridSize in
  let cellH := ViewBox.h viewBox / INR gridSize in
  let cx := ViewBox.x viewBox + (INR i * cellW) + (cellW / 2) in
  let cy := ViewBox.y viewBox + (INR j * cellH) + (cellH / 2) in
  {| Cell.x := ViewBox.x viewBox + (INR i * cellW);
     Cell.y := ViewBox.y viewBox + (INR j * cellH);
     Cell.w := cellW;
     Cell.h := cellH;
     Cell.intensity := cellIntensity targetAreas cx cy |}.

(** The two nested loops, pushing row-major in [i] then [j]. *)
Definition cells (targetAreas : list TargetArea.t) (viewBox : ViewBox.t) : list Cell.t :=
  flat_map (fun i => map (fun j => cell targetAreas viewBox i j) (seq 0 gridSize))
           (seq 0 gridSize).

End Density.

(** ** The point-set owner ([App.tsx] lines 70-77, [types.ts]) *)

Module Zone.
Record t := mk { type : string; area : string; color : string }.
End Zone.

Module PredictionResult.
Record t := mk {
  porphyryPotential : string;
  epithermalPotential : string;
  confidenceScore : R;
  alterationMinerals : list string;
  zones : list Zone.t;
  targetAreas : list TargetArea.t;
  recommendedActions : list string;
  reasoning : string
}.
End PredictionResult.

(** [{ ...target, description: newDescription }] *)
Definition withDescription (target : TargetArea.t) (newDescription : string) : TargetArea.t :=
  {| TargetArea.id := TargetArea.id target;
     TargetArea.x := TargetArea.x target;
     TargetArea.y := TargetArea.y target;
     TargetArea.probability := TargetArea.probability target;
     TargetArea.description := newDescription;
     TargetArea.reasoning := TargetArea.reasoning target |}.

(** [handleUpdateTargetDescription], as a function from the [analysisResult]
    state to its next value. *)
Definition handleUpdateTargetDescription (id : Z) (newDescription : string)
    (analysisResult : option PredictionResult.t) : option PredictionResult.t :=
  match analysisResult with
  | Some r =>
      let updatedTargets :=
        map (fun target =>
               if decide (TargetArea.id target = id)
               then withDescription target newDescription else target)
            (PredictionResult.targetAreas r) in
      Some {| PredictionResult.porphyryPotential := PredictionResult.porphyryPotential r;
              PredictionResult.epithermalPotential := PredictionResult.epithermalPotential r;
              PredictionResult.confidenceScore := PredictionResult.confidenceScore r;
              PredictionResult.alterationMinerals := PredictionResult.alterationMinerals r;
              PredictionResult.zones := PredictionResult.zones r;
              PredictionResult.targetAreas := updatedTargets;
              PredictionResult.recommendedActions := PredictionResult.recommendedActions r;
              PredictionResult.reasoning := PredictionResult.reasoning r |}
  | None => None
  end.

(** ** Special values: the viewport on a degenerate or extreme container

    JavaScript numbers are binary64 numbers, with [Infinity], [-Infinity]
    and [NaN] among them: a division by zero and an overflow produce them,
    and they propagate.  [Ext.num] adds the three special values to the
    reals, and every arithmetic operation rounds its exact result with a
    function [rnd] and turns a rounded result of magnitude [2 ^ 1024] or
    more into an infinity, as IEEE 754 prescribes.  [rnd] is a parameter:
    it stands for rounding to the nearest binary64 number, subnormal
    numbers and the underflow to zero included, with no bound on the
    exponent from above.  What the theorems need of it is collected in
    [Ext.rounding].  Zero is unsigned here: a zero divisor gives the
    infinity of the sign of the dividend, where the source may give the
    opposite one for a negative zero. *)

Module Ext.

Inductive num := Fin (r : R) | PInf | NInf | NaN.

Definition isFinite (a : num) : bool :=
  match a with Fin _ => true | _ => false end.

(** Every binary64 number is smaller than [huge] in magnitude. *)
Definition huge : R := 2 ^ 1024.

(** The infinity of the sign of [r], and [z] when [r] is zero. *)
Definition signed (r : R) (z : num) : num :=
  if decide (r = 0) then z else if decide (r > 0) then PInf else NInf.

Definition neg (a : num) : num :=
  match a with Fin r => Fin (- r) | PInf => NInf | NInf => PInf | NaN => NaN end.

(** [Math.abs] *)
Definition abs (a : num) : num :=
  match a with Fin r => Fin (Rabs r) | PInf | NInf => PInf | NaN => NaN end.

(** [Math.sign] *)
Definition sign (a : num) : num :=
  match a with
  | Fin r => if decide (r > 0) then Fin 1 else if decide (r < 0) then Fin (-1) else Fin 0
  | PInf => Fin 1
  | NInf => Fin (-1)
  | NaN => NaN
  end.

(** [a > b] and [a < b]; every comparison with [NaN] is false. *)
Definition gt (a b : num) : bool :=
  match a, b with
  | NaN, _ | _, NaN => false
  | Fin r, Fin s => bool_decide (r > s)
  | PInf, PInf => false
  | PInf, _ => true
  | Fin _, NInf => true
  | _, _ => false
  end.

Definition lt (a b : num) : bool := gt b a.

(** [Math.min] of two numbers *)
Definition min (a b : num) : num :=
  match a, b with
  | NaN, _ | _, NaN => NaN
  | _, _ => if lt b a then b else a
  end.

Module EViewBox.
Record t := mk { x : num; y : num; w : num; h : num }.
End EViewBox.

Definition finiteViewBox (vb : EViewBox.t) : bool :=
  isFinite (EViewBox.x vb) && isFinite (EViewBox.y vb)
  && isFinite (EViewBox.w vb) && isFinite (EViewBox.h vb).

Section Rounded.

Variable rnd : R → R.

(** The result of an operation whose exact value is the real [r]. *)
Definition fin (r : R) : num :=
  let v := rnd r in
  if decide (Rabs v < huge) then Fin v
  else if decide (v > 0) then PInf else NInf.

Definition add (a b : num) : num :=
  match a, b with
  | NaN, _ | _, NaN => NaN
  | Fin r, Fin s => fin (r + s)
  | PInf, NInf | NInf, PInf => NaN
  | PInf, _ | _, PInf => PInf
  | NInf, _ | _, NInf => NInf
  end.

Definition sub (a b : num) : num :=
  match a, b with
  | NaN, _ | _, NaN => NaN
  | Fin r, Fin s => fin (r - s)
  | Fin _, PInf => NInf
  | Fin _, NInf => PInf
  | PInf, PInf | NInf, NInf => NaN
  | PInf, _ => PInf
  | NInf, _ => NInf
  end.

Definition mul (a b : num) : num :=
  match a, b with
  | NaN, _ | _, NaN => NaN
  | Fin r, Fin s => fin (r * s)
  | Fin r, PInf | PInf, Fin r => signed r NaN
  | Fin r, NInf | NInf, Fin r => neg (signed r NaN)
  | PInf, PInf | NInf, NInf => PInf
  | PInf, NInf | NInf, PInf => NInf
  end.

Definition div (a b : num) : num :=
  match a, b with
  | NaN, _ | _, NaN => NaN
  | Fin r, Fin s => if decide (s = 0) then signed r NaN else fin (r / s)
  | Fin _, PInf | Fin _, NInf => Fin 0
  | PInf, Fin s => if decide (s < 0) then NInf else PInf
  | NInf, Fin s => if decide (s < 0) then PInf else NInf
  | _, _ => NaN
  end.

(** A decimal literal of the source that is no binary64 number. *)
Definition literal (r : R) : num := Fin (rnd r).

(** The props [width] and [height] of the component. *)
Variables width height : num.

Definition aspect : num := div width height.

Definition getBaseViewBox : EViewBox.t :=
  let w := if gt aspect (Fin 1) then mul (Fin 100) aspect else Fin 100 in
  let h := if gt aspect (Fin 1) then Fin 100 else div (Fin 100) aspect in
  {| EViewBox.x := sub (Fin 50) (div w (Fin 2));
     EViewBox.y := sub (Fin 50) (div h (Fin 2));
     EViewBox.w := w; EViewBox.h := h |}.

(** Pixel to data space, lines 111-112. *)
Definition svgX (viewBox : EViewBox.t) (mx : num) : num :=
  add (EViewBox.x viewBox) (mul (div mx width) (EViewBox.w viewBox)).
Definition svgY (viewBox : EViewBox.t) (my : num) : num :=
  add (EViewBox.y viewBox) (mul (div my height) (EViewBox.h viewBox)).

(** Lines 99-102. *)
Definition wheelFactor (dy : num) : num :=
  let zoomSpeed := literal 0.001 in
  let delta := mul (sign dy) (min (abs dy) (Fin 100)) in
  add (Fin 1) (mul delta zoomSpeed).

(** The state updater of [handleWheel], lines 114-143.  [viewBox] is the
    rectangle of the render the handler belongs to, from which the cursor
    is projected, and [prev] the one the updater is given; they are the
    same rectangle unless updates are batched. *)
Definition wheelViewBox (factor mx my : num) (viewBox prev : EViewBox.t) : EViewBox.t :=
  let newW := mul (EViewBox.w prev) factor in
  let newH := mul (EViewBox.h prev) factor in
  let base := getBaseViewBox in
  (* Limit max zoom out to base view *)
  let over := gt newW (EViewBox.w base) in
  let newW := if over then EViewBox.w base else newW in
  let newH := if over then EViewBox.h base else newH in
  (* Limit max zoom in *)
  let under := lt newW (Fin 2) in
  let newW := if under then Fin 2 else newW in
  let newH := if under then div (Fin 2) aspect else newH in
  (* Scale around mouse point *)
  let newX := sub (svgX viewBox mx) (mul (div mx width) newW) in
  let newY := sub (svgY viewBox my) (mul (div my height) newH) in
  let bufferX := mul (EViewBox.w base) (Fin 0.5) in
  let bufferY := mul (EViewBox.h base) (Fin 0.5) in
  let newX := if lt newX (sub (EViewBox.x base) bufferX)
              then sub (EViewBox.x base) bufferX else newX in
  let newY := if lt newY (sub (EViewBox.y base) bufferY)
              then sub (EViewBox.y base) bufferY else newY in
  let newX := if gt (add newX newW)
                    (add (add (EViewBox.x base) (EViewBox.w base)) bufferX)
              then sub (add (add (EViewBox.x base) (EViewBox.w base)) bufferX) newW
              else newX in
  let newY := if gt (add newY newH)
                    (add (add (EViewBox.y base) (EViewBox.h base)) bufferY)
              then sub (add (add (EViewBox.y base) (EViewBox.h base)) bufferY) newH
              else newY in
  (* Snap to base if very close *)
  if lt (abs (sub newW (EViewBox.w base))) (literal 0.1) then base
  else {| EViewBox.x := newX; EViewBox.y := newY; EViewBox.w := newW; EViewBox.h := newH |}.

(** The state updater of [handleWheel] from the event's own numbers,
    lines 99-143. *)
Definition handleWheelViewBox (deltaY clientX clientY rectLeft rectTop : num)
    (viewBox prev : EViewBox.t) : EViewBox.t :=
  let factor := wheelFactor deltaY in
  let mx := sub clientX rectLeft in
  let my := sub clientY rectTop in
  wheelViewBox factor mx my viewBox prev.

(** The state updater of [handleZoom], lines 189-205. *)
Definition zoomViewBox (factor : num) (prev : EViewBox.t) : EViewBox.t :=
  let base := getBaseViewBox in
  let newW := mul (EViewBox.w prev) factor in
  let newH := mul (EViewBox.h prev) factor in
  if gt newW (EViewBox.w base) then base
  else if lt newW (Fin 2) then prev
  else
    let dW := sub (EViewBox.w prev) newW in
    let dH := sub (EViewBox.h prev) newH in
    let newX := add (EViewBox.x prev) (div dW (Fin 2)) in
    let newY := add (EViewBox.y prev) (div dH (Fin 2)) in
    {| EViewBox.x := newX; EViewBox.y := newY; EViewBox.w := newW; EViewBox.h := newH |}.

End Rounded.

(** What is used of the rounding: it is monotone and odd, and the powers of
    two of the binary64 range, subnormal ones included, are binary64
    numbers (as is every larger power of two when the exponent has no upper
    bound). *)
Definition rounding (rnd : R → R) : Prop :=
  (∀ r s, r <= s → rnd r <= rnd s)
  ∧ (∀ r, rnd (- r) = - rnd r)
  ∧ (∀ n : nat, rnd (2 ^ n) = 2 ^ n)
  ∧ (∀ n : nat, (n <= 1074)%nat → rnd (/ 2 ^ n) = / 2 ^ n).

(** A finite number of magnitude at most [2 ^ n]; one of magnitude at least
    [2 ^ - n]. *)
Definition atMost (n : nat) (a : num) : Prop :=
  ∃ r, a = Fin r ∧ Rabs r <= 2 ^ n.
Definition atLeast (n : nat) (a : num) : Prop :=
  ∃ r, a = Fin r ∧ / 2 ^ n <= Rabs r.

(** A rectangle of finite numbers of magnitude at most [2 ^ n]. *)
Definition viewBoxAtMost (n : nat) (vb : EViewBox.t) : Prop :=
  atMost n (EViewBox.x vb) ∧ atMost n (EViewBox.y vb)
  ∧ atMost n (EViewBox.w vb) ∧ atMost n (EViewBox.h vb).

End Ext.

(** ** Further parts of the heatmap ([Heatmap.tsx] lines 53-92, 95-107, 324-328, 332-342, 503-527) *)

(** The zoom factor [handleWheel] derives from [e.deltaY], lines 99-102. *)
Definition wheelFactor (deltaY : R) : R :=
  let zoomSpeed := 0.001 in
  let dy := deltaY in
  let delta := sign dy * Rmin (Rabs dy) 100 in
  1 + delta * zoomSpeed.

(** The state of a heatmap just mounted in a [width] x [height] container:
    the initial values of the [useState] cells and of the ref. *)
Definition mountState (width height : R) : State.t :=
  {| State.selectedTargetId := None;
     State.viewBox := getBaseViewBox width height;
     State.isDragging := false;
     State.dragStart := (0, 0);
     State.dragDistance := 0 |}.

(** The events the rendered tree reacts to, lines 332-342, 388 and 503-527.
    The zoom and reset buttons sit inside the container and do not stop
    propagation: their click runs the button's handler and then the
    container's [onClick].  The details panel stops propagation, so its
    close button only clears the selection. *)
Inductive Gesture :=
  | Wheel (e : WheelEvent.t)
  | MouseDown (e : MouseEvent.t)
  | MouseMove (e : MouseEvent.t)
  | MouseUp
  | MouseLeave
  | Click (target : option Cluster.t)
  | ZoomInButton
  | ZoomOutButton
  | ResetButton
  | CloseDetails.

Definition dispatch (width height : R) (g : Gesture) (st : State.t) : State.t :=
  match g with
  | Wheel e => handleWheel width height e st
  | MouseDown e => handleMouseDown e st
  | MouseMove e => handleMouseMove width height e st
  | MouseUp | MouseLeave => handleMouseUp st
  | Click target => click width height target st
  | ZoomInButton => handleContainerClick (handleZoom width height 0.75 st)
  | ZoomOutButton => handleContainerClick (handleZoom width height 1.33 st)
  | ResetButton => handleContainerClick (resetZoom width height st)
  | CloseDetails => setSelectedTargetId None st
  end.

(** A sequence of events, handled one after the other. *)
Definition run (width height : R) (gs : list Gesture) (st : State.t) : State.t :=
  foldl (fun st g => dispatch width height g st) st gs.

(** [targetAreas.find(t => t.id === selectedTargetId) || null], lines 54-56. *)
Definition selectedTarget (targetAreas : list TargetArea.t) (selectedTargetId : option Z)
  : option TargetArea.t :=
  match selectedTargetId with
  | Some i => List.find (fun t => bool_decide (TargetArea.id t = i)) targetAreas
  | None => None
  end.

(** The editing cells [isEditing] and [editDescription]. *)
Module EditState.
Record t := mk { isEditing : bool; editDescription : string }.
End EditState.

Module KeyboardEvent.
Record t := mk { key : string; metaKey : bool; ctrlKey : bool }.
End KeyboardEvent.

(** [handleSave], lines 72-77: the next editing state and the calls of
    [onUpdateTarget] it makes, as [(id, newDescription)]. *)
Definition handleSave (selected : option TargetArea.t) (st : EditState.t)
  : EditState.t * list (Z * string) :=
  match selected with
  | Some t =>
      ({| EditState.isEditing := false;
          EditState.editDescription := EditState.editDescription st |},
       [(TargetArea.id t, EditState.editDescription st)])
  | None => (st, [])
  end.

(** [handleCancel], lines 79-84. *)
Definition handleCancel (selected : option TargetArea.t) (st : EditState.t) : EditState.t :=
  {| EditState.isEditing := false;
     EditState.editDescription :=
       match selected with
       | Some t => TargetArea.description t
       | None => EditState.editDescription st
       end |}.

(** [handleKeyDown], lines 86-92. *)
Definition handleKeyDown (e : KeyboardEvent.t) (selected : option TargetArea.t)
    (st : EditState.t) : EditState.t * list (Z * string) :=
  if bool_decide (KeyboardEvent.key e = "Enter")
     && (KeyboardEvent.metaKey e || KeyboardEvent.ctrlKey e)
  then handleSave selected st
  else if bool_decide (KeyboardEvent.key e = "Escape")
  then (handleCancel selected st, [])
  else (st, []).

(** [getTooltipPosition], lines 324-328: the two percentages, as numbers
    (the source appends the percent sign to each). *)
Definition getTooltipPosition (viewBox : ViewBox.t) (c : Cluster.t) : R * R :=
  let left := ((Cluster.x c - ViewBox.x viewBox) / ViewBox.w viewBox) * 100 in
  let top := ((Cluster.y c - ViewBox.y viewBox) / ViewBox.h viewBox) * 100 in
  (left, top).

(** ** The uploaded files ([App.tsx] lines 29-42, [types.ts]) *)

Inductive FileCategory := SATELLITE | MAPS | GEOCHEM | GEOPHYSICS | FIELD_PETROLOGY.

(** ['file' | 'url'] *)
Inductive SourceType := SourceFile | SourceUrl.

(** [UploadedFile]; [File] is the browser's file object. *)
Module UploadedFile.
Record t {File : Type} := mk {
  id : string;
  sourceType : SourceType;
  file : option File;
  url : option string;
  category : FileCategory;
  previewUrl : option string;
  base64 : option string
}.
Arguments t : clear implicits.
End UploadedFile.

(** [handleAddLink]; [newId] is the value of
    [Math.random().toString(36).substr(2, 9)]. *)
Definition handleAddLink {File : Type} (newId : string) (url : string)
    (category : FileCategory) (files : list (UploadedFile.t File))
  : list (UploadedFile.t File) :=
  let newLink :=
    {| UploadedFile.id := newId; UploadedFile.sourceType := SourceUrl;
       UploadedFile.file := None; UploadedFile.url := Some url;
       UploadedFile.category := category;
       UploadedFile.previewUrl := None; UploadedFile.base64 := None |} in
  files ++ [newLink].

(** [handleRemoveFile]: [prev.filter(f => f.id !== id)]. *)
Definition handleRemoveFile {File : Type} (id : string) (files : list (UploadedFile.t File))
  : list (UploadedFile.t File) :=
  filter (fun f => UploadedFile.id f ≠ id) files.

(** ** The dashboard's filters ([ResultsDashboard.tsx] lines 14-34, 40-102) *)

Inductive ProbabilityCategory := high | medium | low.

Definition getProbabilityCategory (prob : R) : ProbabilityCategory :=
  if decide (prob >= 0.6) then high
  else if decide (prob >= 0.3) then medium
  else low.

(** [activeFilters] *)
Module ActiveFilters.
Record t := mk { high : bool; medium : bool; low : bool }.
End ActiveFilters.

(** [activeFilters[cat]] *)
Definition activeFilter (activeFilters : ActiveFilters.t) (cat : ProbabilityCategory) : bool :=
  match cat with
  | high => ActiveFilters.high activeFilters
  | medium => ActiveFilters.medium activeFilters
  | low => ActiveFilters.low activeFilters
  end.

(** [toggleFilter]: [{ ...prev, [key]: !prev[key] }]. *)
Definition toggleFilter (key : ProbabilityCategory) (prev : ActiveFilters.t) : ActiveFilters.t :=
  match key with
  | high => {| ActiveFilters.high := negb (ActiveFilters.high prev);
               ActiveFilters.medium := ActiveFilters.medium prev;
               ActiveFilters.low := ActiveFilters.low prev |}
  | medium => {| ActiveFilters.high := ActiveFilters.high prev;
                 ActiveFilters.medium := negb (ActiveFilters.medium prev);
                 ActiveFilters.low := ActiveFilters.low prev |}
  | low => {| ActiveFilters.high := ActiveFilters.high prev;
              ActiveFilters.medium := ActiveFilters.medium prev;
              ActiveFilters.low := negb (ActiveFilters.low prev) |}
  end.

(** [toggleTag], on the set [disabledTags]. *)
Definition toggleTag (tag : string) (prev : gset string) : gset string :=
  if decide (tag ∈ prev) then prev ∖ {[tag]} else {[tag]} ∪ prev.

(** [Array.prototype.sort] without comparator, on strings: ascending by
    code units, computed by insertion as for [sortByX]. *)
Fixpoint insertString (s : string) (l : list string) : list string :=
  match l with
  | [] => [s]
  | s' :: l' => if String.leb s s' then s :: s' :: l' else s' :: insertString s l'
  end.

Definition sortStrings (l : list string) : list string := foldr insertString [] l.

Section Tags.

(** The string methods [String.prototype.toLowerCase] and
    [String.prototype.includes] ([includes text word]). *)
Variable toLowerCase : string → string.
Variable includes : string → string → bool.

(** [getTargetTags], lines 15-34.  Each tag is added at most once, so the
    [Set] is the list of the tags in the order they are added. *)
Definition getTargetTags (target : TargetArea.t) : list string :=
  let text :=
    toLowerCase (TargetArea.description target +:+ " "
                 +:+ match TargetArea.reasoning target with
                     | Some r => r
                     | None => EmptyString
                     end) in
  let tags :=
    (if includes text "potassic" || includes text "biotite" || includes text "k-feldspar"
     then ["Potassic"] else [])
    ++ (if includes text "phyllic" || includes text "sericite" || includes text "pyrite"
           || includes text "qsp"
        then ["Phyllic"] else [])
    ++ (if includes text "argillic" || includes text "kaolinite" || includes text "clay"
           || includes text "alunite"
        then ["Argillic"] else [])
    ++ (if includes text "propylitic" || includes text "chlorite" || includes text "epidote"
        then ["Propylitic"] else [])
    ++ (if includes text "silicic" || includes text "silica" || includes text "quartz"
           || includes text "stockwork"
        then ["Silicic/Qtz"] else [])
    ++ (if includes text "vein" then ["Veining"] else [])
    ++ (if includes text "breccia" then ["Breccia"] else [])
    ++ (if includes text "fault" || includes text "structure" then ["Structural"] else []) in
  let tags := if bool_decide (length tags = 0%nat) then tags ++ ["Unclassified"] else tags in
  sortStrings tags.

(** The predicate of the [filter] in [displayedTargets], lines 88-102. *)
Definition isDisplayed (activeFilters : ActiveFilters.t) (disabledTags : gset string)
    (target : TargetArea.t) : bool :=
  let cat := getProbabilityCategory (TargetArea.probability target) in
  if negb (activeFilter activeFilters cat) then false
  else
    let tags := getTargetTags target in
    existsb (fun t => bool_decide (t ∉ disabledTags)) tags.

Definition displayedTargets (targetAreas : list TargetArea.t)
    (activeFilters : ActiveFilters.t) (disabledTags : gset string) : list TargetArea.t :=
  filter (fun target => isDisplayed activeFilters disabledTags target = true) targetAreas.

End Tags.

(** The filters as first rendered and as [Reset Filters] sets them. *)
Definition allFilters : ActiveFilters.t :=
  {| ActiveFilters.high := true; ActiveFilters.medium := true; ActiveFilters.low := true |}.

(** ** Vocabulary of the specification *)

(** The rectangle has the container's aspect ratio and is at least 2 units
    wide. *)
Definition proportioned (width height : R) (vb : ViewBox.t) : Prop :=
  ViewBox.w vb = ViewBox.h vb * aspect width height ∧ 2 <= ViewBox.w vb.

(** The seeds of a cluster list: the first member of each cluster. *)
Definition seeds (cs : list Cluster.t) : list TargetArea.t :=
  omap (fun c => head (Cluster.points c)) cs.

(** The cluster holding one point. *)
Definition singleCluster (p : TargetArea.t) : Cluster.t := mkCluster p [p].

(** The pixel position of a pointer event. *)
Definition position (e : MouseEvent.t) : R * R :=
  (MouseEvent.clientX e, MouseEvent.clientY e).


Definition sumR (l : list R) : R := foldr Rplus 0 l.

(** The arithmetic mean of a list of numbers. *)
Definition mean (l : list R) : R := sumR l / INR (length l).

(** Two cluster lists have the same membership sets: each member list of
    one is, up to order, a member list of the other. *)
Definition sameMembership (cs cs' : list Cluster.t) : Prop :=
  (∀ c, c ∈ cs → ∃ c', c' ∈ cs' ∧ Cluster.points c ≡ₚ Cluster.points c')
  ∧ (∀ c', c' ∈ cs' → ∃ c, c ∈ cs ∧ Cluster.points c ≡ₚ Cluster.points c').

(** The number of points that sit in multi-member clusters. *)
Definition mergedCount (cs : list Cluster.t) : nat :=
  sum_list (map (fun c => if Cluster.isCluster c
                          then length (Cluster.points c) else 0%nat) cs).

(** The kernel density at [(cx, cy)]: the clamped sum of
    [probability * exp (- d^2 / 100)], [d] the Euclidean distance. *)
Definition density (targetAreas : list TargetArea.t) (cx cy : R) : R :=
  Rmin 1 (sumR (map (fun p =>
                       TargetArea.probability p
                       * exp (- ((cx - TargetArea.x p) ^ 2 + (cy - TargetArea.y p) ^ 2) / 100))
                    targetAreas)).

(** The centre of cell [(i, j)] of the grid over [viewBox]. *)
Definition cellCentreX (viewBox : ViewBox.t) (i : nat) : R :=
  ViewBox.x viewBox + (INR i + / 2) * (ViewBox.w viewBox / 30).
Definition cellCentreY (viewBox : ViewBox.t) (j : nat) : R :=
  ViewBox.y viewBox + (INR j + / 2) * (ViewBox.h viewBox / 30).

(** The origin of [vb] lies within [base] widened by half its extent on
    each side: what the four boundary checks of [handleWheel] establish. *)
Definition originClamped (base vb : ViewBox.t) : Prop :=
  ViewBox.x base - ViewBox.w base * 0.5 <= ViewBox.x vb
  ∧ ViewBox.x vb + ViewBox.w vb <= ViewBox.x base + ViewBox.w base + ViewBox.w base * 0.5
  ∧ ViewBox.y base - ViewBox.h base * 0.5 <= ViewBox.y vb
  ∧ ViewBox.y vb + ViewBox.h vb <= ViewBox.y base + ViewBox.h base + ViewBox.h base * 0.5.

Definition centreX (vb : ViewBox.t) : R := ViewBox.x vb + ViewBox.w vb / 2.
Definition centreY (vb : ViewBox.t) : R := ViewBox.y vb + ViewBox.h vb / 2.

(** [vb] is centred on the centre of the bounding box [(minX, maxX, minY, maxY)]. *)
Definition centredOnBounds (vb : ViewBox.t) (b : R * R * R * R) : Prop :=
  let '(minX, maxX, minY, maxY) := b in
  centreX vb = (minX + maxX) / 2 ∧ centreY vb = (minY + maxY) / 2.

(** Ascending in [x]: the order of the comparator [(a, b) => a.x - b.x]. *)
Definition leX (a b : TargetArea.t) : Prop := TargetArea.x a <= TargetArea.x b.

(** The neighbours the inner loop takes for seed [p]: those whose id is not
    used yet and that lie within the threshold of [p]. *)
Definition taken (threshold : R) (p : TargetArea.t) (used : gset Z) (q : TargetArea.t) : Prop :=
  (TargetArea.id q ∉ used) ∧ (dist q p <= threshold).

#[global] Instance taken_dec threshold p used q : Decision (taken threshold p used q).
Proof. unfold taken. apply _. Defined.

Definition unused (used : gset Z) (q : TargetArea.t) : Prop := TargetArea.id q ∉ used.

#[global] Instance unused_dec used q : Decision (unused used q).
Proof. unfold unused. apply _. Defined.

(** ** Sample inputs *)

Definition point (id : Z) (x y : R) : TargetArea.t :=
  {| TargetArea.id := id; TargetArea.x := x; TargetArea.y := y;
     TargetArea.probability := 0.5; TargetArea.description := "target";
     TargetArea.reasoning := None |}.

(** The state of a freshly mounted 600 x 400 heatmap. *)
Definition initialState : State.t :=
  {| State.selectedTargetId := None;
     State.viewBox := getBaseViewBox 600 400;
     State.isDragging := false;
     State.dragStart := (0, 0);
     State.dragDistance := 0 |}.

Definition sampleResult : PredictionResult.t :=
  {| PredictionResult.porphyryPotential := "High";
     PredictionResult.epithermalPotential := "Low";
     PredictionResult.confidenceScore := 80;
     PredictionResult.alterationMinerals := ["sericite"];
     PredictionResult.zones := [];
     PredictionResult.targetAreas := [point 1 10 10; point 2 12 11];
     PredictionResult.recommendedActions := [];
     PredictionResult.reasoning := "summary" |}.

(** Three points on a vertical line: equal [x], 3 units apart. *)
Definition tiedPoints : list TargetArea.t :=
  [point 1 50 0; point 2 50 3; point 3 50 6].

Definition tiedPointsShuffled : list TargetArea.t :=
  [point 2 50 3; point 1 50 0; point 3 50 6].

(** Four points on a horizontal line, 3 units apart. *)
Definition chainPoints : list TargetArea.t :=
  [point 1 10 50; point 2 13 50; point 3 16 50; point 4 19 50].

(** ** Evaluating comparisons of concrete reals *)

Ltac decide_R :=
  repeat match goal with
  | |- context [decide ?P] =>
      first [ rewrite (decide_True (P:=P)) by lra
            | rewrite (decide_False (P:=P)) by lra ]
  end.

(** ** The point-set owner *)

(** C10.  [handleUpdateTargetDescription] replaces only the description of
    the targets whose id matches: the other fields of the result are kept,
    the target list keeps its length and positions, a matching target keeps
    its id, x, y, probability and reasoning and gets the new description, a
    non-matching target is kept as it is, and with no matching id the target
    list is unchanged. *)
Theorem handleUpdateTargetDescription_frame :
  ∀ (r : PredictionResult.t) (id : Z) (newDescription : string),
  ∃ r', handleUpdateTargetDescription id newDescription (Some r) = Some r'
    ∧ PredictionResult.porphyryPotential r' = PredictionResult.porphyryPotential r
    ∧ PredictionResult.epithermalPotential r' = PredictionResult.epithermalPotential r
    ∧ PredictionResult.confidenceScore r' = PredictionResult.confidenceScore r
    ∧ PredictionResult.alterationMinerals r' = PredictionResult.alterationMinerals r
    ∧ PredictionResult.zones r' = PredictionResult.zones r
    ∧ PredictionResult.recommendedActions r' = PredictionResult.recommendedActions r
    ∧ PredictionResult.reasoning r' = PredictionResult.reasoning r
    ∧ length (PredictionResult.targetAreas r') = length (PredictionResult.targetAreas r)
    ∧ (∀ i t, PredictionResult.targetAreas r !! i = Some t →
         ∃ t', PredictionResult.targetAreas r' !! i = Some t'
           ∧ TargetArea.id t' = TargetArea.id t
           ∧ TargetArea.x t' = TargetArea.x t
           ∧ TargetArea.y t' = TargetArea.y t
           ∧ TargetArea.probability t' = TargetArea.probability t
           ∧ TargetArea.reasoning t' = TargetArea.reasoning t
           ∧ (TargetArea.id t = id → TargetArea.description t' = newDescription)
           ∧ (TargetArea.id t ≠ id → t' = t))
    ∧ ((∀ t, t ∈ PredictionResult.targetAreas r → TargetArea.id t ≠ id) →
         PredictionResult.targetAreas r' = PredictionResult.targetAreas r).
Proof.
  intros r id newDescription. eexists. split; [reflexivity|]. cbn.
  repeat split; try reflexivity.
  - by rewrite length_map.
  - intros i t Hi. rewrite list_lookup_fmap, Hi. cbn.
    destruct (decide (TargetArea.id t = id)) as [Heq|Hne].
    + eexists. repeat split; try reflexivity. intros; contradiction.
    + exists t. repeat split; try reflexivity. intros; contradiction.
  - intros Hno. induction (PredictionResult.targetAreas r) as [|t l IH]; [reflexivity|].
    cbn. rewrite decide_False by (apply Hno; left). f_equal.
    apply IH. intros t' Ht'. apply Hno. by right.
Qed.

(** On the sample result: editing target 2 changes its description and
    nothing else; with no analysis result there is nothing to update. *)
Example handleUpdateTargetDescription_sample :
  (PredictionResult.targetAreas
     <$> handleUpdateTargetDescription 2 "new text" (Some sampleResult))
  = Some [point 1 10 10; withDescription (point 2 12 11) "new text"]
  ∧ handleUpdateTargetDescription 2 "new text" None = None.
Proof.
  split; [|reflexivity]. unfold handleUpdateTargetDescription, sampleResult.
  cbn [PredictionResult.targetAreas map point TargetArea.id fmap option_fmap option_map].
  rewrite decide_False by discriminate. rewrite decide_True by reflexivity. reflexivity.
Qed.

(** ** Panning *)

(** C5.  During a drag, a move of [(dx, dy)] pixels shifts the origin by
    the pixel delta scaled by extent over container extent on each axis,
    keeps width and height, and clamps nothing; the data-space point under
    the cursor before the move is under the cursor after it, wherever the
    container sits on the page ([left], [top]). *)
Theorem handleMouseMove_pan :
  ∀ (width height : R) (e : MouseEvent.t) (st : State.t),
  width ≠ 0 → height ≠ 0 → State.isDragging st = true →
  let dx := MouseEvent.clientX e - fst (State.dragStart st) in
  let dy := MouseEvent.clientY e - snd (State.dragStart st) in
  let prev := State.viewBox st in
  let next := State.viewBox (handleMouseMove width height e st) in
  ViewBox.x next = ViewBox.x prev - dx * (ViewBox.w prev / width)
  ∧ ViewBox.y next = ViewBox.y prev - dy * (ViewBox.h prev / height)
  ∧ ViewBox.w next = ViewBox.w prev
  ∧ ViewBox.h next = ViewBox.h prev
  ∧ (∀ left top : R,
       svgX width next (MouseEvent.clientX e - left)
         = svgX width prev (fst (State.dragStart st) - left)
       ∧ svgY height next (MouseEvent.clientY e - top)
         = svgY height prev (snd (State.dragStart st) - top)).
Proof.
  intros width height e st Hw Hh Hdrag dx dy prev next.
  assert (Hnext : next =
    {| ViewBox.x := ViewBox.x prev - dx * (ViewBox.w prev / width);
       ViewBox.y := ViewBox.y prev - dy * (ViewBox.h prev / height);
       ViewBox.w := ViewBox.w prev; ViewBox.h := ViewBox.h prev |}).
  { subst next. unfold handleMouseMove. rewrite Hdrag. cbn [negb].
    fold dx dy prev. destruct (decide (dx = 0 ∧ dy = 0)) as [[Hx Hy]|Hmoved]; cbn.
    - rewrite Hx, Hy. destruct prev; cbn. f_equal; lra.
    - reflexivity. }
  rewrite Hnext. cbn. repeat split; unfold svgX, svgY; cbn; subst dx dy; field; assumption.
Qed.

Lemma handleMouseMove_pan_witness :
  let st := setViewBox (ViewBox.mk 0 0 150 100)
              (handleMouseDown (MouseEvent.mk 0 100 100) initialState) in
  let e := MouseEvent.mk 0 112 96 in
  ViewBox.x (State.viewBox (handleMouseMove 600 400 e st)) = 0 - (112 - 100) * (150 / 600)
  ∧ ViewBox.w (State.viewBox (handleMouseMove 600 400 e st)) = 150.
Proof.
  intros st e.
  assert (H600 : (600 : R) ≠ 0) by lra.
  assert (H400 : (400 : R) ≠ 0) by lra.
  assert (Hdrag : State.isDragging st = true).
  { subst st. unfold handleMouseDown. cbn. rewrite decide_False by (intros H; apply H; reflexivity).
    reflexivity. }
  pose proof (handleMouseMove_pan 600 400 e st H600 H400 Hdrag) as (Hx & _ & Hw & _).
  split; [exact Hx | exact Hw].
Defined.

(** ** Step zoom *)

Lemma getBaseViewBox_w_ge_100 (width height : R) :
  100 <= ViewBox.w (getBaseViewBox width height).
Proof.
  unfold getBaseViewBox; cbn. destruct (decide (aspect width height > 1)); lra.
Qed.

Lemma getBaseViewBox_600_400 :
  getBaseViewBox 600 400 = ViewBox.mk (-25) 0 150 100.
Proof.
  unfold getBaseViewBox, aspect. decide_R. f_equal; lra.
Qed.

(** C6, as the code has it.  The three cases below cover every rectangle
    and every factor.  A request whose scaled width exceeds the base width
    returns the base rectangle: this is so for every zoom-out request at or
    above the base width, and also for one that overshoots the base width
    from a narrower rectangle.  A request that would take the width below 2
    returns the rectangle unchanged.  Otherwise width and height are scaled
    by the factor and the origin moves by half the change of extent, so the
    centre stays where it was.  The origin is not clamped. *)
Theorem zoomViewBox_contract :
  ∀ (width height factor : R) (prev : ViewBox.t),
  let base := getBaseViewBox width height in
  let next := zoomViewBox width height factor prev in
  (ViewBox.w prev * factor > ViewBox.w base → next = base)
  ∧ (factor > 1 ∧ ViewBox.w base <= ViewBox.w prev → next = base)
  ∧ (ViewBox.w prev * factor < 2 → next = prev)
  ∧ (2 <= ViewBox.w prev * factor <= ViewBox.w base →
       ViewBox.w next = ViewBox.w prev * factor
       ∧ ViewBox.h next = ViewBox.h prev * factor
       ∧ ViewBox.x next = ViewBox.x prev + (ViewBox.w prev - ViewBox.w next) / 2
       ∧ ViewBox.y next = ViewBox.y prev + (ViewBox.h prev - ViewBox.h next) / 2
       ∧ centreX next = centreX prev
       ∧ centreY next = centreY prev).
Proof.
  intros width height factor prev base next.
  pose proof (getBaseViewBox_w_ge_100 width height) as Hbase. fold base in Hbase.
  subst next. unfold zoomViewBox. fold base.
  split; [|split; [|split]].
  - intros Hover. rewrite decide_True by lra. reflexivity.
  - intros [Hf Hw]. rewrite decide_True by nra. reflexivity.
  - intros Hsmall. rewrite decide_False by lra. rewrite decide_True by lra. reflexivity.
  - intros Hmid. rewrite decide_False by lra. rewrite decide_False by lra.
    unfold centreX, centreY. cbn [ViewBox.x ViewBox.y ViewBox.w ViewBox.h].
    repeat split; lra.
Qed.

(** The overshoot is reached with the buttons alone.  In the 600 x 400
    container, Zoom In followed by Zoom Out gives a width of 149.625, just
    under the base width 150; a second Zoom Out asks for 199.00125 and gets
    the base rectangle. *)
Example zoomViewBox_overshoot :
  let base := getBaseViewBox 600 400 in
  let narrower := zoomViewBox 600 400 1.33 (zoomViewBox 600 400 0.75 base) in
  ViewBox.w narrower = 149.625
  ∧ ViewBox.w narrower < ViewBox.w base
  ∧ zoomViewBox 600 400 1.33 narrower = base.
Proof.
  intros base narrower. subst base narrower. rewrite getBaseViewBox_600_400.
  assert (H1 : zoomViewBox 600 400 0.75 (ViewBox.mk (-25) 0 150 100)
               = ViewBox.mk (-6.25) 12.5 112.5 75).
  { unfold zoomViewBox. rewrite getBaseViewBox_600_400. cbn. decide_R. f_equal; lra. }
  rewrite H1.
  assert (H2 : zoomViewBox 600 400 1.33 (ViewBox.mk (-6.25) 12.5 112.5 75)
               = ViewBox.mk (-24.8125) 0.125 149.625 99.75).
  { unfold zoomViewBox. rewrite getBaseViewBox_600_400. cbn. decide_R. f_equal; lra. }
  rewrite H2.
  split; [cbn; lra|]. split; [cbn; lra|].
  unfold zoomViewBox. rewrite getBaseViewBox_600_400. cbn. decide_R. reflexivity.
Qed.

(** C6, as the claim has it, fails: a rectangle panned far to the left and
    then zoomed in by the button keeps its origin outside the buffered base
    bounds. *)
Lemma zoomViewBox_origin_not_clamped :
  let prev := ViewBox.mk (-1000) 0 150 100 in
  let base := getBaseViewBox 600 400 in
  2 <= ViewBox.w prev * 0.75 <= ViewBox.w base
  ∧ zoomViewBox 600 400 0.75 prev = ViewBox.mk (-981.25) 12.5 112.5 75
  ∧ ¬ originClamped base (zoomViewBox 600 400 0.75 prev).
Proof.
  intros prev base. subst base. rewrite getBaseViewBox_600_400.
  assert (Hz : zoomViewBox 600 400 0.75 prev = ViewBox.mk (-981.25) 12.5 112.5 75).
  { unfold zoomViewBox. rewrite getBaseViewBox_600_400. subst prev. cbn.
    decide_R. f_equal; lra. }
  rewrite Hz. subst prev. cbn. repeat split; try lra.
  unfold originClamped. cbn. lra.
Qed.

(** The wheel zoom, for comparison, does keep the rectangle within the
    buffered base bounds horizontally, whatever the rectangle it starts
    from. *)
Lemma wheelViewBox_x_clamped (width height factor mx my : R) (prev : ViewBox.t) :
  let base := getBaseViewBox width height in
  let next := wheelViewBox width height factor mx my prev in
  ViewBox.x base - ViewBox.w base * 0.5 <= ViewBox.x next
  ∧ ViewBox.x next + ViewBox.w next <= ViewBox.x base + ViewBox.w base + ViewBox.w base * 0.5.
Proof.
  intros base next. subst next.
  pose proof (getBaseViewBox_w_ge_100 width height) as Hbase. fold base in Hbase.
  unfold wheelViewBox. fold base.
  set (bx := ViewBox.x base) in *. set (bw := ViewBox.w base) in *.
  repeat (case_decide; cbn [ViewBox.x ViewBox.w]); fold bx bw; try lra.
Qed.

(** ** Click against drag *)

(** What a click does on either side of the threshold. *)
Lemma click_below_threshold (width height : R) (target : option Cluster.t) (st : State.t) :
  State.dragDistance st < 5 →
  click width height target st =
    match target with
    | None => setSelectedTargetId None st
    | Some cluster =>
        if Cluster.isCluster cluster
        then setViewBox (drillDownViewBox width height (Cluster.points cluster)) st
        else match Cluster.points cluster with
             | p :: _ => setSelectedTargetId (Some (TargetArea.id p)) st
             | [] => st
             end
    end.
Proof.
  intros Hd. destruct target as [cluster|]; cbn.
  - unfold handleClusterClick. rewrite decide_False by lra.
    destruct (Cluster.isCluster cluster); reflexivity.
  - unfold handleContainerClick. rewrite decide_True by lra. reflexivity.
Qed.

Lemma click_above_threshold (width height : R) (target : option Cluster.t) (st : State.t) :
  State.dragDistance st > 5 → click width height target st = st.
Proof.
  intros Hd. destruct target as [cluster|]; cbn.
  - unfold handleClusterClick. rewrite decide_True by lra. reflexivity.
  - unfold handleContainerClick. rewrite decide_False by lra. reflexivity.
Qed.

(** C9 at a failing input.  Press at (100, 100), move to (103, 102),
    release: the accumulated displacement is exactly 5.  The container's
    click handler treats the gesture as a drag and keeps the selection, the
    cluster's click handler treats it as a click and selects the point. *)
Theorem click_at_threshold :
  let cluster := mkCluster (point 7 40 50) [point 7 40 50] in
  let st := handleMouseUp
              (handleMouseMove 600 400 (MouseEvent.mk 0 103 102)
                 (handleMouseDown (MouseEvent.mk 0 100 100)
                    (setSelectedTargetId (Some 3%Z) initialState))) in
  State.dragDistance st = 5
  ∧ State.selectedTargetId (click 600 400 None st) = Some 3%Z
  ∧ State.selectedTargetId (click 600 400 (Some cluster) st) = Some 7%Z.
Proof.
  intros cluster st.
  assert (Hd : State.dragDistance st = 5).
  { subst st. unfold handleMouseDown. cbn [MouseEvent.button].
    rewrite decide_False by (intros H; apply H; reflexivity).
    unfold handleMouseMove. cbn - [Rabs]. decide_R. cbn - [Rabs].
    rewrite !Rabs_pos_eq by lra. lra. }
  assert (Hs : State.selectedTargetId st = Some 3%Z).
  { subst st. unfold handleMouseDown. cbn [MouseEvent.button].
    rewrite decide_False by (intros H; apply H; reflexivity).
    unfold handleMouseMove. cbn - [Rabs]. decide_R. reflexivity. }
  repeat split.
  - exact Hd.
  - cbn [click]. unfold handleContainerClick. rewrite Hd. decide_R. exact Hs.
  - cbn [click]. unfold handleClusterClick. rewrite Hd. decide_R. reflexivity.
Qed.

(** ** Degenerate containers *)

Section ExtFacts.

Import Ext.

Variable rnd : R → R.
Hypothesis Hrnd : rounding rnd.

Lemma pow2_pos (n : nat) : 0 < 2 ^ n.
Proof. apply pow_lt. lra. Qed.

Lemma pow2_le (n m : nat) : (n <= m)%nat → 2 ^ n <= 2 ^ m.
Proof. intros Hnm. apply Rle_pow; [lra | exact Hnm]. Qed.

Lemma pow2_lt_huge (n : nat) : (n <= 1023)%nat → 2 ^ n < huge.
Proof. intros Hn. unfold huge. apply Rlt_pow; [lra | lia]. Qed.

Lemma rnd_atMost (n : nat) (r : R) : Rabs r <= 2 ^ n → Rabs (rnd r) <= 2 ^ n.
Proof.
  destruct Hrnd as (Hmono & Hodd & Hpow & _). intros Hr.
  assert (Hlo : - 2 ^ n <= r) by (revert Hr; unfold Rabs; destruct (Rcase_abs r); lra).
  assert (Hhi : r <= 2 ^ n) by (revert Hr; unfold Rabs; destruct (Rcase_abs r); lra).
  apply Hmono in Hlo, Hhi. rewrite Hodd, (Hpow n) in Hlo. rewrite (Hpow n) in Hhi.
  unfold Rabs; destruct (Rcase_abs (rnd r)); lra.
Qed.

Lemma rnd_atLeast (n : nat) (r : R) :
  (n <= 1074)%nat → / 2 ^ n <= Rabs r → / 2 ^ n <= Rabs (rnd r).
Proof.
  destruct Hrnd as (Hmono & Hodd & _ & Hinv). intros Hn Hr.
  pose proof (Rinv_0_lt_compat _ (pow2_pos n)) as Hpos.
  destruct (Rle_lt_dec 0 r) as [Hr0|Hr0].
  - rewrite Rabs_pos_eq in Hr by exact Hr0.
    apply Hmono in Hr. rewrite (Hinv n Hn) in Hr.
    rewrite Rabs_pos_eq by lra. exact Hr.
  - rewrite Rabs_left in Hr by exact Hr0.
    apply Hmono in Hr. rewrite (Hinv n Hn), Hodd in Hr.
    rewrite Rabs_left by lra. exact Hr.
Qed.

Lemma fin_atMost (n : nat) (r : R) :
  (n <= 1023)%nat → Rabs r <= 2 ^ n → atMost n (fin rnd r).
Proof.
  intros Hn Hr. pose proof (rnd_atMost n r Hr) as Hv.
  pose proof (pow2_lt_huge n Hn) as Hh.
  unfold fin. cbv zeta. rewrite decide_True by lra.
  exists (rnd r). split; [reflexivity | exact Hv].
Qed.

Lemma atMost_finite (n : nat) (a : num) : atMost n a → isFinite a = true.
Proof. intros (r & -> & _). reflexivity. Qed.

Lemma atMost_weaken (n m : nat) (a : num) : (n <= m)%nat → atMost n a → atMost m a.
Proof.
  intros Hnm (r & -> & Hr). exists r. split; [reflexivity|].
  pose proof (pow2_le n m Hnm). lra.
Qed.

Lemma atMost_Fin (n : nat) (r : R) : Rabs r <= 2 ^ n → atMost n (Fin r).
Proof. intros Hr. exists r. split; [reflexivity | exact Hr]. Qed.

Lemma atMost_0 : atMost 0 (Fin 0).
Proof. apply atMost_Fin. rewrite Rabs_R0. simpl. lra. Qed.

Lemma atMost_1 : atMost 0 (Fin 1).
Proof. apply atMost_Fin. rewrite Rabs_pos_eq by lra. simpl. lra. Qed.

Lemma atMost_minus_1 : atMost 0 (Fin (-1)).
Proof. apply atMost_Fin. rewrite Rabs_left by lra. simpl. lra. Qed.

Lemma atMost_half : atMost 0 (Fin 0.5).
Proof. apply atMost_Fin. rewrite Rabs_pos_eq by lra. simpl. lra. Qed.

Lemma atMost_2 : atMost 1 (Fin 2).
Proof. apply atMost_Fin. rewrite Rabs_pos_eq by lra. simpl. lra. Qed.

Lemma atLeast_2 : atLeast 0 (Fin 2).
Proof.
  exists 2. split; [reflexivity|]. rewrite Rabs_pos_eq by lra. simpl. lra.
Qed.

Lemma atMost_50 : atMost 6 (Fin 50).
Proof. apply atMost_Fin. rewrite Rabs_pos_eq by lra. simpl. lra. Qed.

Lemma atMost_100 : atMost 7 (Fin 100).
Proof. apply atMost_Fin. rewrite Rabs_pos_eq by lra. simpl. lra. Qed.

Lemma atMost_literal (r : R) : Rabs r <= 1 → atMost 0 (literal rnd r).
Proof.
  intros Hr. apply atMost_Fin. apply rnd_atMost. simpl. lra.
Qed.

Lemma pow2_add_le (n m : nat) : 2 ^ n + 2 ^ m <= 2 ^ S (Nat.max n m).
Proof.
  pose proof (pow2_le n (Nat.max n m) ltac:(lia)).
  pose proof (pow2_le m (Nat.max n m) ltac:(lia)).
  change (2 ^ S (Nat.max n m)) with (2 * 2 ^ Nat.max n m). lra.
Qed.

Lemma atMost_add (n m : nat) (a b : num) :
  atMost n a → atMost m b → (S (Nat.max n m) <= 1023)%nat →
  atMost (S (Nat.max n m)) (add rnd a b).
Proof.
  intros (r & -> & Hr) (s & -> & Hs) Hn. cbn [add].
  apply fin_atMost; [exact Hn|].
  pose proof (Rabs_triang r s). pose proof (pow2_add_le n m). lra.
Qed.

Lemma atMost_sub (n m : nat) (a b : num) :
  atMost n a → atMost m b → (S (Nat.max n m) <= 1023)%nat →
  atMost (S (Nat.max n m)) (sub rnd a b).
Proof.
  intros (r & -> & Hr) (s & -> & Hs) Hn. cbn [sub].
  apply fin_atMost; [exact Hn|].
  pose proof (Rabs_triang r (- s)) as Ht. rewrite Rabs_Ropp in Ht.
  pose proof (pow2_add_le n m). unfold Rminus. lra.
Qed.

Lemma atMost_mul (n m : nat) (a b : num) :
  atMost n a → atMost m b → (n + m <= 1023)%nat →
  atMost (n + m) (mul rnd a b).
Proof.
  intros (r & -> & Hr) (s & -> & Hs) Hn. cbn [mul].
  apply fin_atMost; [exact Hn|].
  rewrite Rabs_mult, pow_add.
  apply Rmult_le_compat; auto using Rabs_pos.
Qed.

Lemma atLeast_nonzero (m : nat) (s : R) : / 2 ^ m <= Rabs s → s ≠ 0.
Proof.
  intros Hs ->. rewrite Rabs_R0 in Hs.
  pose proof (Rinv_0_lt_compat _ (pow2_pos m)). lra.
Qed.

Lemma Rabs_div_le (n m : nat) (r s : R) :
  Rabs r <= 2 ^ n → / 2 ^ m <= Rabs s → Rabs (r / s) <= 2 ^ (n + m).
Proof.
  intros Hr Hs. pose proof (atLeast_nonzero m s Hs) as Hs0.
  pose proof (Rinv_0_lt_compat _ (pow2_pos m)) as Hpos.
  unfold Rdiv. rewrite Rabs_mult, Rabs_inv, pow_add.
  apply Rmult_le_compat; auto using Rabs_pos.
  - left. apply Rinv_0_lt_compat. lra.
  - rewrite <- (Rinv_inv (2 ^ m)). apply Rinv_le_contravar; [exact Hpos | exact Hs].
Qed.

Lemma atMost_div (n m : nat) (a b : num) :
  atMost n a → atLeast m b → (n + m <= 1023)%nat →
  atMost (n + m) (div rnd a b).
Proof.
  intros (r & -> & Hr) (s & -> & Hs) Hn. cbn [div].
  rewrite decide_False by (eapply atLeast_nonzero; exact Hs).
  apply fin_atMost; [exact Hn|]. apply Rabs_div_le; assumption.
Qed.

Lemma atLeast_div (n p q m : nat) (a b : num) :
  atMost n a → atLeast p a → atMost q b → atLeast m b →
  (n + m <= 1023)%nat → (p + q <= 1074)%nat →
  atLeast (p + q) (div rnd a b).
Proof.
  intros Ha (r & -> & Hr) (s & Hb & Hs) Hb' Hnm Hpq.
  destruct (atMost_div n m (Fin r) b Ha Hb' Hnm) as (v & Hv & _).
  subst b. destruct Hb' as (s' & [= <-] & Hs').
  pose proof (atLeast_nonzero m s Hs') as Hs0.
  exists v. split; [exact Hv|].
  cbn [div] in Hv. rewrite decide_False in Hv by exact Hs0.
  unfold fin in Hv. cbv zeta in Hv.
  destruct (decide (Rabs (rnd (r / s)) < huge)) as [_|_];
    [|destruct (decide (rnd (r / s) > 0)); discriminate].
  injection Hv as <-. apply rnd_atLeast; [exact Hpq|].
  pose proof (Rinv_0_lt_compat _ (pow2_pos p)) as Hp.
  pose proof (Rinv_0_lt_compat _ (pow2_pos q)) as Hq.
  unfold Rdiv. rewrite Rabs_mult, Rabs_inv, pow_add, Rinv_mult.
  apply Rmult_le_compat; try lra.
  apply Rinv_le_contravar; [|exact Hs].
  apply Rabs_pos_lt. exact Hs0.
Qed.

Lemma atMost_abs (n : nat) (a : num) : atMost n a → atMost n (abs a).
Proof.
  intros (r & -> & Hr). apply atMost_Fin. rewrite Rabs_Rabsolu. exact Hr.
Qed.

Lemma atMost_sign (a : num) : a ≠ NaN → atMost 0 (sign a).
Proof.
  intros Ha. destruct a as [r| | |]; cbn [sign].
  - repeat case_decide; auto using atMost_1, atMost_minus_1, atMost_0.
  - apply atMost_1.
  - apply atMost_minus_1.
  - congruence.
Qed.

Lemma atMost_if (n m : nat) (c : bool) (a b : num) :
  atMost n a → atMost m b → atMost (Nat.max n m) (if c then a else b).
Proof.
  intros Ha Hb. destruct c.
  - eapply atMost_weaken; [|exact Ha]. lia.
  - eapply atMost_weaken; [|exact Hb]. lia.
Qed.

Lemma atMost_min (n m : nat) (a b : num) :
  atMost n a → atMost m b → atMost (Nat.max n m) (min a b).
Proof.
  intros (r & -> & Hr) (s & -> & Hs). cbn [min].
  rewrite Nat.max_comm. apply atMost_if; apply atMost_Fin; assumption.
Qed.

(** Bounds are found by following the expression. *)
Ltac bound :=
  lazymatch goal with
  | |- atMost _ (add _ _ _) => eapply atMost_add; [bound | bound | lia]
  | |- atMost _ (sub _ _ _) => eapply atMost_sub; [bound | bound | lia]
  | |- atMost _ (mul _ _ _) => eapply atMost_mul; [bound | bound | lia]
  | |- atMost _ (div _ _ _) =>
      eapply atMost_div; [bound | first [eassumption | exact atLeast_2] | lia]
  | |- atMost _ (if _ then _ else _) => eapply atMost_if; [bound | bound]
  | |- atMost _ (abs _) => eapply atMost_abs; bound
  | |- atMost _ (min _ _) => eapply atMost_min; [bound | bound]
  | |- atMost _ (sign _) => eapply atMost_sign; congruence
  | |- atMost _ (literal _ _) => eapply atMost_literal; rewrite Rabs_pos_eq; lra
  | |- atMost _ (Fin 0) => exact atMost_0
  | |- atMost _ (Fin 1) => exact atMost_1
  | |- atMost _ (Fin 2) => exact atMost_2
  | |- atMost _ (Fin 0.5) => exact atMost_half
  | |- atMost _ (Fin 50) => exact atMost_50
  | |- atMost _ (Fin 100) => exact atMost_100
  | |- atMost _ _ => eassumption
  end.

Ltac bound_by := eapply atMost_weaken; cycle 1; [bound | lia].

Lemma finiteViewBox_atMost (n : nat) (vb : EViewBox.t) :
  viewBoxAtMost n vb → finiteViewBox vb = true.
Proof.
  intros (Hx & Hy & Hw & Hh). unfold finiteViewBox.
  rewrite (atMost_finite _ _ Hx), (atMost_finite _ _ Hy),
    (atMost_finite _ _ Hw), (atMost_finite _ _ Hh). reflexivity.
Qed.

Section Container.

Variables width height : num.
Hypothesis Hwidth : atMost 64 width.
Hypothesis Hwidth' : atLeast 64 width.
Hypothesis Hheight : atMost 64 height.
Hypothesis Hheight' : atLeast 64 height.

Lemma aspect_atMost : atMost 128 (aspect rnd width height).
Proof. unfold aspect. bound_by. Qed.

Lemma aspect_atLeast : atLeast 128 (aspect rnd width height).
Proof.
  unfold aspect.
  apply (atLeast_div 64 64 64 64); assumption || lia.
Qed.

Lemma getBaseViewBox_atMost : viewBoxAtMost 136 (getBaseViewBox rnd width height).
Proof.
  pose proof aspect_atMost as Ha. pose proof aspect_atLeast as Ha'.
  unfold getBaseViewBox. cbv zeta.
  repeat split; cbn [EViewBox.x EViewBox.y EViewBox.w EViewBox.h]; bound_by.
Qed.

Lemma svgX_atMost (viewBox : EViewBox.t) (mx : num) :
  viewBoxAtMost 64 viewBox → atMost 65 mx →
  atMost 194 (svgX rnd width viewBox mx).
Proof. intros (Hx & Hy & Hw & Hh) Hmx. unfold svgX. bound_by. Qed.

Lemma svgY_atMost (viewBox : EViewBox.t) (my : num) :
  viewBoxAtMost 64 viewBox → atMost 65 my →
  atMost 194 (svgY rnd height viewBox my).
Proof. intros (Hx & Hy & Hw & Hh) Hmy. unfold svgY. bound_by. Qed.

Lemma wheelFactor_atMost (deltaY : num) :
  atMost 64 deltaY → atMost 65 (wheelFactor rnd deltaY).
Proof.
  intros Hdy. assert (deltaY ≠ NaN) by (destruct Hdy as (r & -> & _); discriminate).
  unfold wheelFactor. cbv zeta. bound_by.
Qed.

Lemma wheelViewBox_atMost (factor mx my : num) (viewBox prev : EViewBox.t) :
  atMost 65 factor → atMost 65 mx → atMost 65 my →
  viewBoxAtMost 64 viewBox → viewBoxAtMost 64 prev →
  viewBoxAtMost 400 (wheelViewBox rnd width height factor mx my viewBox prev).
Proof.
  intros Hf Hmx Hmy Hview (Hx & Hy & Hw & Hh).
  pose proof aspect_atMost as Ha. pose proof aspect_atLeast as Ha'.
  pose proof (svgX_atMost viewBox mx Hview Hmx) as HsvgX.
  pose proof (svgY_atMost viewBox my Hview Hmy) as HsvgY.
  destruct getBaseViewBox_atMost as (Hbx & Hby & Hbw & Hbh).
  unfold wheelViewBox. cbv zeta.
  match goal with |- context [if ?c then getBaseViewBox _ _ _ else _] => destruct c end.
  - repeat split; bound_by.
  - repeat split; cbn [EViewBox.x EViewBox.y EViewBox.w EViewBox.h]; bound_by.
Qed.

Lemma zoomViewBox_atMost (factor : num) (prev : EViewBox.t) :
  atMost 64 factor → viewBoxAtMost 64 prev →
  viewBoxAtMost 400 (zoomViewBox rnd width height factor prev).
Proof.
  intros Hf (Hx & Hy & Hw & Hh).
  destruct getBaseViewBox_atMost as (Hbx & Hby & Hbw & Hbh).
  unfold zoomViewBox. cbv zeta.
  repeat match goal with |- context [if ?c then _ else _] => destruct c end.
  - repeat split; bound_by.
  - repeat split; bound_by.
  - repeat split; cbn [EViewBox.x EViewBox.y EViewBox.w EViewBox.h]; bound_by.
Qed.

End Container.

End ExtFacts.

(** The exact arithmetic is a rounding in the sense of [Ext.rounding]. *)
Lemma rounding_exact : Ext.rounding (fun r => r).
Proof. repeat split; intros; solve [assumption | reflexivity]. Qed.

Lemma atMost_64_intro (r : R) : Rabs r <= 1024 → Ext.atMost 64 (Ext.Fin r).
Proof.
  intros Hr. exists r. split; [reflexivity|].
  pose proof (Rle_pow 2 10 64 ltac:(lra) ltac:(lia)) as Hp.
  replace (2 ^ 10) with 1024 in Hp by (simpl; lra). lra.
Qed.

Lemma atLeast_64_intro (r : R) : 1 <= Rabs r → Ext.atLeast 64 (Ext.Fin r).
Proof.
  intros Hr. exists r. split; [reflexivity|].
  pose proof (Rle_pow 2 0 64 ltac:(lra) ltac:(lia)) as Hp.
  replace (2 ^ 0) with 1 in Hp by (simpl; lra).
  assert (/ 2 ^ 64 <= / 1) by (apply Rinv_le_contravar; lra).
  rewrite Rinv_1 in *. lra.
Qed.

(** C8, as the code has it.  No division is guarded and nothing falls back
    to the base rectangle, and yet the viewport computations produce finite
    numbers whenever the container's width and height are not zero:
    negative dimensions and rectangles of zero extent included.  Stated for
    binary64 arithmetic with any rounding that satisfies [Ext.rounding], and
    for numbers of ordinary size: container dimensions of magnitude between
    [2 ^ -64] and [2 ^ 64], and a rectangle, a cursor position, a wheel delta
    and a zoom factor of magnitude at most [2 ^ 64].  Then the base
    rectangle, the projection of the cursor into data space, the rectangle
    after a wheel event and the rectangle after a zoom button consist of
    finite numbers. *)
Theorem viewport_finite_in_range :
  ∀ (rnd : R → R)
    (width height deltaY clientX clientY rectLeft rectTop factor : Ext.num)
    (viewBox prev : Ext.EViewBox.t),
  Ext.rounding rnd →
  Ext.atMost 64 width → Ext.atLeast 64 width →
  Ext.atMost 64 height → Ext.atLeast 64 height →
  Ext.atMost 64 deltaY →
  Ext.atMost 64 clientX → Ext.atMost 64 clientY →
  Ext.atMost 64 rectLeft → Ext.atMost 64 rectTop →
  Ext.atMost 64 factor →
  Ext.viewBoxAtMost 64 viewBox → Ext.viewBoxAtMost 64 prev →
  let mx := Ext.sub rnd clientX rectLeft in
  let my := Ext.sub rnd clientY rectTop in
  Ext.finiteViewBox (Ext.getBaseViewBox rnd width height) = true
  ∧ Ext.isFinite (Ext.svgX rnd width viewBox mx) = true
  ∧ Ext.isFinite (Ext.svgY rnd height viewBox my) = true
  ∧ Ext.finiteViewBox
      (Ext.handleWheelViewBox rnd width height
         deltaY clientX clientY rectLeft rectTop viewBox prev) = true
  ∧ Ext.finiteViewBox (Ext.zoomViewBox rnd width height factor prev) = true.
Proof.
  intros rnd width height deltaY clientX clientY rectLeft rectTop factor viewBox prev
    Hrnd Hw Hw' Hh Hh' Hdy Hcx Hcy Hrl Hrt Hf Hview Hprev mx my.
  assert (Hmx : Ext.atMost 65 mx) by (apply (atMost_sub rnd Hrnd 64 64); assumption || lia).
  assert (Hmy : Ext.atMost 65 my) by (apply (atMost_sub rnd Hrnd 64 64); assumption || lia).
  split; [|split; [|split; [|split]]].
  - eapply finiteViewBox_atMost. apply getBaseViewBox_atMost; assumption.
  - eapply atMost_finite. apply svgX_atMost; assumption.
  - eapply atMost_finite. apply svgY_atMost; assumption.
  - eapply finiteViewBox_atMost. unfold Ext.handleWheelViewBox. cbv zeta.
    apply wheelViewBox_atMost; try assumption.
    apply wheelFactor_atMost; assumption.
  - eapply finiteViewBox_atMost. apply zoomViewBox_atMost; assumption.
Qed.

Lemma viewport_finite_in_range_witness :
  let rnd := fun r : R => r in
  let width := Ext.Fin (-600) in
  let height := Ext.Fin 400 in
  let viewBox := Ext.EViewBox.mk (Ext.Fin 50) (Ext.Fin 50) (Ext.Fin 0) (Ext.Fin 0) in
  let mx := Ext.sub rnd (Ext.Fin 300) (Ext.Fin 0) in
  let my := Ext.sub rnd (Ext.Fin 200) (Ext.Fin 0) in
  Ext.finiteViewBox (Ext.getBaseViewBox rnd width height) = true
  ∧ Ext.isFinite (Ext.svgX rnd width viewBox mx) = true
  ∧ Ext.isFinite (Ext.svgY rnd height viewBox my) = true
  ∧ Ext.finiteViewBox
      (Ext.handleWheelViewBox rnd width height
         (Ext.Fin (-100)) (Ext.Fin 300) (Ext.Fin 200) (Ext.Fin 0) (Ext.Fin 0)
         viewBox viewBox) = true
  ∧ Ext.finiteViewBox (Ext.zoomViewBox rnd width height (Ext.Fin 0.75) viewBox) = true.
Proof.
  intros rnd width height viewBox mx my.
  assert (Hview : Ext.viewBoxAtMost 64 viewBox).
  { repeat split; apply atMost_64_intro; cbn;
      first [rewrite Rabs_R0 | rewrite Rabs_pos_eq by lra]; lra. }
  apply (viewport_finite_in_range rnd width height
           (Ext.Fin (-100)) (Ext.Fin 300) (Ext.Fin 200) (Ext.Fin 0) (Ext.Fin 0)
           (Ext.Fin 0.75) viewBox viewBox);
    first [ exact rounding_exact | exact Hview
          | apply atMost_64_intro | apply atLeast_64_intro ];
    first [ rewrite Rabs_R0 | rewrite Rabs_pos_eq by lra | rewrite Rabs_left by lra ];
    lra.
Defined.

(** C8, as the claim has it, fails: with a zero height the aspect ratio is
    [Infinity], and so are the base rectangle's width and, negated, its
    origin, whatever the rounding.  Nothing guards the division and nothing
    falls back. *)
Lemma getBaseViewBox_zero_height_infinite :
  (∀ rnd, Ext.aspect rnd (Ext.Fin 600) (Ext.Fin 0) = Ext.PInf)
  ∧ (∀ rnd, Ext.EViewBox.w (Ext.getBaseViewBox rnd (Ext.Fin 600) (Ext.Fin 0)) = Ext.PInf)
  ∧ (∀ rnd, Ext.EViewBox.x (Ext.getBaseViewBox rnd (Ext.Fin 600) (Ext.Fin 0)) = Ext.NInf)
  ∧ (∀ rnd, Ext.finiteViewBox (Ext.getBaseViewBox rnd (Ext.Fin 600) (Ext.Fin 0)) = false).
Proof.
  assert (Ha : ∀ rnd, Ext.aspect rnd (Ext.Fin 600) (Ext.Fin 0) = Ext.PInf).
  { intros rnd. unfold Ext.aspect. cbn [Ext.div]. unfold Ext.signed.
    decide_R. reflexivity. }
  assert (Hw : ∀ rnd, Ext.EViewBox.w (Ext.getBaseViewBox rnd (Ext.Fin 600) (Ext.Fin 0))
                      = Ext.PInf).
  { intros rnd. unfold Ext.getBaseViewBox. cbv zeta. cbn [Ext.EViewBox.w].
    rewrite Ha. cbn [Ext.gt Ext.mul]. unfold Ext.signed. decide_R. reflexivity. }
  assert (Hx : ∀ rnd, Ext.EViewBox.x (Ext.getBaseViewBox rnd (Ext.Fin 600) (Ext.Fin 0))
                      = Ext.NInf).
  { intros rnd. unfold Ext.getBaseViewBox. cbv zeta. cbn [Ext.EViewBox.x].
    rewrite Ha. cbn [Ext.gt Ext.mul]. unfold Ext.signed. decide_R.
    cbn [Ext.div]. decide_R. reflexivity. }
  split; [exact Ha|]. split; [exact Hw|]. split; [exact Hx|].
  intros rnd. unfold Ext.finiteViewBox. rewrite Hx. reflexivity.
Qed.

(** The bounds on the magnitudes are needed.  A width of [2 ^ 1023] on a
    height of 1, both binary64 numbers, gives the base rectangle an infinite
    width by overflow of [100 * aspect]. *)
Lemma getBaseViewBox_overflow (rnd : R → R) :
  Ext.rounding rnd →
  Ext.EViewBox.w (Ext.getBaseViewBox rnd (Ext.Fin (2 ^ 1023)) (Ext.Fin 1)) = Ext.PInf.
Proof.
  intros Hrnd. destruct Hrnd as (Hmono & _ & Hpow & _).
  pose proof (pow_lt 2 1023 ltac:(lra)) as Hpos.
  assert (Hlt : 2 ^ 1023 < Ext.huge) by (unfold Ext.huge; apply Rlt_pow; [lra|lia]).
  assert (Hone : 1 < 2 ^ 1023).
  { replace 1 with (2 ^ 0) by reflexivity. apply Rlt_pow; [lra|lia]. }
  assert (Ha : Ext.aspect rnd (Ext.Fin (2 ^ 1023)) (Ext.Fin 1) = Ext.Fin (2 ^ 1023)).
  { unfold Ext.aspect. cbn [Ext.div]. rewrite decide_False by lra.
    unfold Ext.fin. cbv zeta. rewrite Rdiv_1_r, Hpow.
    rewrite Rabs_pos_eq by lra. rewrite decide_True by exact Hlt. reflexivity. }
  unfold Ext.getBaseViewBox. cbv zeta. cbn [Ext.EViewBox.w]. rewrite Ha.
  cbn [Ext.gt]. rewrite bool_decide_eq_true_2 by exact Hone.
  cbn [Ext.mul]. unfold Ext.fin. cbv zeta.
  assert (Hbig : Ext.huge <= rnd (100 * 2 ^ 1023)).
  { unfold Ext.huge. rewrite <- (Hpow 1024%nat). apply Hmono.
    change (2 ^ 1024) with (2 * 2 ^ 1023). lra. }
  rewrite decide_False by (rewrite Rabs_pos_eq; lra).
  rewrite decide_True by lra. reflexivity.
Qed.

(** So is the bound from below: a width of [2 ^ -1070] on a height of 1
    gives a finite aspect ratio, and [100 / aspect] overflows. *)
Lemma getBaseViewBox_tiny_width (rnd : R → R) :
  Ext.rounding rnd →
  Ext.EViewBox.h (Ext.getBaseViewBox rnd (Ext.Fin (/ 2 ^ 1070)) (Ext.Fin 1)) = Ext.PInf.
Proof.
  intros Hrnd. destruct Hrnd as (Hmono & _ & Hpow & Hinv).
  pose proof (pow_lt 2 1070 ltac:(lra)) as Hpos.
  pose proof (Rinv_0_lt_compat _ Hpos) as Hipos.
  assert (Hone : 1 <= 2 ^ 1070).
  { replace 1 with (2 ^ 0) by reflexivity. apply Rle_pow; [lra|lia]. }
  assert (Hsmall : / 2 ^ 1070 <= 1).
  { rewrite <- Rinv_1. apply Rinv_le_contravar; lra. }
  assert (Hhuge : 1 < Ext.huge).
  { unfold Ext.huge. replace 1 with (2 ^ 0) by reflexivity. apply Rlt_pow; [lra|lia]. }
  assert (Ha : Ext.aspect rnd (Ext.Fin (/ 2 ^ 1070)) (Ext.Fin 1) = Ext.Fin (/ 2 ^ 1070)).
  { unfold Ext.aspect. cbn [Ext.div]. rewrite decide_False by lra.
    unfold Ext.fin. cbv zeta. rewrite Rdiv_1_r, (Hinv 1070%nat) by lia.
    rewrite Rabs_pos_eq by lra. rewrite decide_True by lra. reflexivity. }
  unfold Ext.getBaseViewBox. cbv zeta. cbn [Ext.EViewBox.h]. rewrite Ha.
  cbn [Ext.gt]. rewrite bool_decide_eq_false_2 by lra.
  cbn [Ext.div]. rewrite decide_False by lra.
  unfold Ext.fin. cbv zeta.
  assert (Hbig : Ext.huge <= rnd (100 / / 2 ^ 1070)).
  { unfold Ext.huge. rewrite <- (Hpow 1024%nat). apply Hmono.
    unfold Rdiv. rewrite Rinv_inv.
    replace (2 ^ 1024) with (2 ^ 0 * 2 ^ 1024) by (rewrite pow_O; lra).
    pose proof (Rle_pow 2 1024 1070 ltac:(lra) ltac:(lia)).
    rewrite pow_O. lra. }
  rewrite decide_False by (rewrite Rabs_pos_eq; lra).
  rewrite decide_True by lra. reflexivity.
Qed.

(** ** Density field *)

Section DensityFacts.

Lemma fold_left_add_sumR {A} (f : A → R) (l : list A) (a : R) :
  fold_left (fun acc t => acc + f t) l a = a + sumR (map f l).
Proof.
  unfold sumR. revert a. induction l as [|t l IH]; intros a; cbn.
  - lra.
  - rewrite IH. lra.
Qed.

Lemma sumR_nonneg (l : list R) : Forall (fun v => 0 <= v) l → 0 <= sumR l.
Proof.
  unfold sumR. induction 1 as [|v l Hv _ IH]; cbn; lra.
Qed.

Lemma sumR_ge_elem (l : list R) (v : R) :
  Forall (fun v => 0 <= v) l → v ∈ l → v <= sumR l.
Proof.
  induction 1 as [|u l Hu Hl IH]; intros Hin.
  - by apply elem_of_nil in Hin.
  - pose proof (sumR_nonneg l Hl) as Hs. unfold sumR in *.
    apply elem_of_cons in Hin as [->|Hin]; cbn.
    + lra.
    + specialize (IH Hin). lra.
Qed.

(** The square of the square root is the squared distance itself. *)
Lemma influence_eq (cx cy : R) (target : TargetArea.t) :
  influence cx cy target
  = TargetArea.probability target
    * exp (- ((cx - TargetArea.x target) ^ 2 + (cy - TargetArea.y target) ^ 2) / 100).
Proof.
  unfold influence. cbv zeta. rewrite sqrt_def; [reflexivity|].
  pose proof (pow2_ge_0 (cx - TargetArea.x target)).
  pose proof (pow2_ge_0 (cy - TargetArea.y target)). lra.
Qed.

Lemma cellIntensity_density (targetAreas : list TargetArea.t) (cx cy : R) :
  cellIntensity targetAreas cx cy = density targetAreas cx cy.
Proof.
  unfold cellIntensity, density. cbv zeta.
  rewrite fold_left_add_sumR, Rplus_0_l, Rmin_comm. f_equal. f_equal.
  apply map_ext. intros target. apply influence_eq.
Qed.

Lemma influences_nonneg (targetAreas : list TargetArea.t) (cx cy : R) :
  Forall (fun p => 0 <= TargetArea.probability p <= 1) targetAreas →
  Forall (fun v => 0 <= v) (map (influence cx cy) targetAreas).
Proof.
  intros H. apply Forall_fmap. eapply Forall_impl; [exact H|].
  intros p [Hp _]. cbn. rewrite influence_eq.
  apply Rmult_le_pos; [exact Hp | left; apply exp_pos].
Qed.

Lemma cellIntensity_bounds (targetAreas : list TargetArea.t) (cx cy : R) :
  Forall (fun p => 0 <= TargetArea.probability p <= 1) targetAreas →
  0 <= cellIntensity targetAreas cx cy <= 1.
Proof.
  intros H. unfold cellIntensity. cbv zeta. rewrite fold_left_add_sumR, Rplus_0_l.
  pose proof (sumR_nonneg _ (influences_nonneg targetAreas cx cy H)) as Hs.
  split; [apply Rmin_glb; lra | apply Rmin_r].
Qed.

Lemma cellIntensity_at_point (targetAreas : list TargetArea.t) (p : TargetArea.t) :
  Forall (fun p => 0 <= TargetArea.probability p <= 1) targetAreas →
  p ∈ targetAreas → TargetArea.probability p = 1 →
  cellIntensity targetAreas (TargetArea.x p) (TargetArea.y p) = 1.
Proof.
  intros H Hin Hp. unfold cellIntensity. cbv zeta.
  rewrite fold_left_add_sumR, Rplus_0_l.
  assert (Hone : influence (TargetArea.x p) (TargetArea.y p) p = 1).
  { rewrite influence_eq, Hp.
    replace (- ((TargetArea.x p - TargetArea.x p) ^ 2
                + (TargetArea.y p - TargetArea.y p) ^ 2) / 100) with 0 by field.
    rewrite exp_0. lra. }
  assert (Hge : 1 <= sumR (map (influence (TargetArea.x p) (TargetArea.y p)) targetAreas)).
  { rewrite <- Hone at 1. apply sumR_ge_elem.
    - by apply influences_nonneg.
    - by apply (list_elem_of_fmap_2 (influence (TargetArea.x p) (TargetArea.y p))). }
  apply Rmin_right. exact Hge.
Qed.

(** The grid of the two nested loops, read by position. *)
Lemma lookup_grid {A} (g : nat → nat → A) (m n s i j : nat) :
  (i < n)%nat → (j < m)%nat →
  flat_map (fun i => map (g i) (seq 0 m)) (seq s n) !! (i * m + j)%nat = Some (g (s + i)%nat j).
Proof.
  revert s i. induction n as [|n IH]; intros s i Hi Hj; [lia|].
  cbn [seq flat_map]. destruct i as [|i].
  - rewrite lookup_app_l by (rewrite length_map, length_seq; lia).
    rewrite list_lookup_fmap, lookup_seq_lt by lia. cbn. do 2 f_equal. lia.
  - rewrite lookup_app_r by (rewrite length_map, length_seq; lia).
    rewrite length_map, length_seq.
    replace (S i * m + j - m)%nat with (i * m + j)%nat by lia.
    rewrite IH by lia. do 2 f_equal. lia.
Qed.

Lemma length_grid {A} (g : nat → nat → A) (m n s : nat) :
  length (flat_map (fun i => map (g i) (seq 0 m)) (seq s n)) = (n * m)%nat.
Proof.
  revert s. induction n as [|n IH]; intros s; [reflexivity|].
  cbn [seq flat_map]. rewrite length_app, length_map, length_seq, IH. lia.
Qed.

Lemma elem_of_cells (targetAreas : list TargetArea.t) (viewBox : ViewBox.t) (c : Cell.t) :
  c ∈ cells targetAreas viewBox → ∃ i j, c = cell targetAreas viewBox i j.
Proof.
  unfold cells. rewrite list_elem_of_In, in_flat_map.
  intros (i & _ & Hc). apply in_map_iff in Hc as (j & <- & _). by exists i, j.
Qed.

Lemma INR_gridSize : INR gridSize = 30.
Proof. unfold gridSize. rewrite INR_IZR_INZ. reflexivity. Qed.

End DensityFacts.

(** C4.  With probabilities in [0,1] the grid has 900 cells, cell
    [i * 30 + j] covering column [i] and row [j] of the viewport cut in
    30 x 30; its intensity is the clamped kernel sum at its centre; every
    intensity is in [0,1]; a cell whose centre is a point of probability 1
    has intensity 1; without points every intensity is 0. *)
Theorem cells_density_grid :
  ∀ (targetAreas : list TargetArea.t) (viewBox : ViewBox.t),
  Forall (fun p => 0 <= TargetArea.probability p <= 1) targetAreas →
  length (cells targetAreas viewBox) = 900%nat
  ∧ (∀ i j, (i < 30)%nat → (j < 30)%nat →
       ∃ c, cells targetAreas viewBox !! (i * 30 + j)%nat = Some c
         ∧ Cell.x c = ViewBox.x viewBox + INR i * (ViewBox.w viewBox / 30)
         ∧ Cell.y c = ViewBox.y viewBox + INR j * (ViewBox.h viewBox / 30)
         ∧ Cell.w c = ViewBox.w viewBox / 30
         ∧ Cell.h c = ViewBox.h viewBox / 30
         ∧ Cell.intensity c
           = density targetAreas (cellCentreX viewBox i) (cellCentreY viewBox j)
         ∧ (∀ p, p ∈ targetAreas → TargetArea.probability p = 1 →
              TargetArea.x p = cellCentreX viewBox i →
              TargetArea.y p = cellCentreY viewBox j →
              Cell.intensity c = 1))
  ∧ (∀ c, c ∈ cells targetAreas viewBox → 0 <= Cell.intensity c <= 1)
  ∧ (∀ c, c ∈ cells [] viewBox → Cell.intensity c = 0).
Proof.
  intros targetAreas viewBox Hprob.
  assert (Hcx : ∀ i, ViewBox.x viewBox + INR i * (ViewBox.w viewBox / INR gridSize)
                     + ViewBox.w viewBox / INR gridSize / 2 = cellCentreX viewBox i).
  { intros i. unfold cellCentreX. rewrite INR_gridSize. lra. }
  assert (Hcy : ∀ j, ViewBox.y viewBox + INR j * (ViewBox.h viewBox / INR gridSize)
                     + ViewBox.h viewBox / INR gridSize / 2 = cellCentreY viewBox j).
  { intros j. unfold cellCentreY. rewrite INR_gridSize. lra. }
  split; [|split; [|split]].
  - unfold cells. rewrite length_grid. reflexivity.
  - intros i j Hi Hj. exists (cell targetAreas viewBox i j). split.
    { exact (lookup_grid (cell targetAreas viewBox) 30 30 0 i j Hi Hj). }
    unfold cell. cbn [Cell.x Cell.y Cell.w Cell.h Cell.intensity].
    rewrite Hcx, Hcy, INR_gridSize.
    repeat split; try reflexivity.
    + apply cellIntensity_density.
    + intros p Hin Hp Hx Hy. rewrite <- Hx, <- Hy.
      by apply cellIntensity_at_point.
  - intros c Hc. apply elem_of_cells in Hc as (i & j & ->).
    unfold cell. cbn [Cell.intensity]. by apply cellIntensity_bounds.
  - intros c Hc. apply elem_of_cells in Hc as (i & j & ->).
    unfold cell, cellIntensity. cbn [Cell.intensity fold_left]. apply Rmin_left. lra.
Qed.

Lemma cells_density_grid_witness :
  length (cells [point 1 10 10; point 2 12 11] (getBaseViewBox 600 400)) = 900%nat
  ∧ (∀ c, c ∈ cells [point 1 10 10; point 2 12 11] (getBaseViewBox 600 400) →
       0 <= Cell.intensity c <= 1).
Proof.
  assert (H : Forall (fun p => 0 <= TargetArea.probability p <= 1)
                [point 1 10 10; point 2 12 11]).
  { repeat constructor; cbn; lra. }
  pose proof (cells_density_grid [point 1 10 10; point 2 12 11] (getBaseViewBox 600 400) H)
    as (Hlen & _ & Hb & _).
  split; [exact Hlen | exact Hb].
Defined.

(** ** Sorting by x *)

Section Sorting.

Lemma insertByX_Permutation (p : TargetArea.t) (l : list TargetArea.t) :
  insertByX p l ≡ₚ p :: l.
Proof.
  induction l as [|q l IH]; cbn; [reflexivity|].
  destruct (decide (TargetArea.x p <= TargetArea.x q)); [reflexivity|].
  rewrite IH. apply Permutation_swap.
Qed.

Lemma sortByX_Permutation (l : list TargetArea.t) : sortByX l ≡ₚ l.
Proof.
  induction l as [|p l IH]; cbn; [reflexivity|].
  rewrite insertByX_Permutation. by rewrite IH.
Qed.

Lemma insertByX_sorted (p : TargetArea.t) (l : list TargetArea.t) :
  StronglySorted leX l → StronglySorted leX (insertByX p l).
Proof.
  induction 1 as [|q l Hl IH Hq]; cbn.
  - repeat constructor.
  - destruct (decide (TargetArea.x p <= TargetArea.x q)) as [Hle|Hgt].
    + constructor; [by constructor|]. constructor; [exact Hle|].
      eapply Forall_impl; [exact Hq|]. unfold leX. intros; cbn in *; lra.
    + constructor; [exact IH|].
      rewrite insertByX_Permutation. constructor; [|exact Hq]. unfold leX. lra.
Qed.

Lemma sortByX_sorted (l : list TargetArea.t) : StronglySorted leX (sortByX l).
Proof.
  induction l as [|p l IH]; cbn; [constructor|]. by apply insertByX_sorted.
Qed.

Lemma NoDup_fmap_inj_on {A B} (f : A → B) (l : list A) (a b : A) :
  NoDup (f <$> l) → a ∈ l → b ∈ l → f a = f b → a = b.
Proof.
  induction l as [|c l IH]; intros Hnd Ha Hb Hf; [by apply elem_of_nil in Ha|].
  rewrite fmap_cons in Hnd. apply NoDup_cons in Hnd as [Hc Hnd].
  apply elem_of_cons in Ha as [->|Ha]; apply elem_of_cons in Hb as [->|Hb].
  - reflexivity.
  - exfalso. apply Hc. rewrite Hf. by apply list_elem_of_fmap_2.
  - exfalso. apply Hc. rewrite <- Hf. by apply list_elem_of_fmap_2.
  - by apply IH.
Qed.

(** With pairwise distinct x coordinates the sorted order does not depend
    on the order of the input. *)
Lemma sortByX_unique (l1 l2 : list TargetArea.t) :
  NoDup (TargetArea.x <$> l1) → l1 ≡ₚ l2 → sortByX l1 = sortByX l2.
Proof.
  intros Hnd Hperm.
  apply (StronglySorted_unique_strong leX); try apply sortByX_sorted.
  - intros a b Ha Hb Hab Hba. unfold leX in *.
    apply (NoDup_fmap_inj_on TargetArea.x l1).
    + exact Hnd.
    + by rewrite <- (sortByX_Permutation l1).
    + by rewrite Hperm, <- (sortByX_Permutation l2).
    + lra.
  - by rewrite !sortByX_Permutation.
Qed.

End Sorting.

(** ** Clustering *)

Section ClusteringFacts.

Implicit Types (p q : TargetArea.t) (l rest : list TargetArea.t) (used : gset Z).

Lemma filter_ext_elem {A} (P1 P2 : A → Prop)
    `{!∀ x, Decision (P1 x), !∀ x, Decision (P2 x)} (l : list A) :
  (∀ x, x ∈ l → (P1 x ↔ P2 x)) → filter P1 l = filter P2 l.
Proof.
  induction l as [|a l IH]; intros Hiff; [reflexivity|].
  assert (Hl : filter P1 l = filter P2 l).
  { apply IH. intros x Hx. apply Hiff. by right. }
  destruct (decide (P1 a)) as [Ha|Ha].
  - rewrite !filter_cons_True; [by rewrite Hl| |exact Ha]. apply Hiff; [by left|exact Ha].
  - rewrite !filter_cons_False; [exact Hl| |exact Ha].
    intros Ha'. apply Ha, Hiff; [by left|exact Ha'].
Qed.

(** The inner loop in closed form, for distinct ids. *)
Lemma scanNeighbors_filter (threshold : R) p rest clusterPoints used :
  NoDup (TargetArea.id <$> rest) →
  scanNeighbors threshold p rest clusterPoints used
  = (clusterPoints ++ filter (taken threshold p used) rest,
     list_to_set (TargetArea.id <$> filter (taken threshold p used) rest) ∪ used).
Proof.
  revert clusterPoints used.
  induction rest as [|n rest IH]; intros clusterPoints used Hnd.
  - cbn. rewrite app_nil_r. f_equal. set_solver.
  - rewrite fmap_cons in Hnd. apply NoDup_cons in Hnd as [Hn Hnd].
    cbn [scanNeighbors].
    destruct (decide (TargetArea.id n ∈ used)) as [Hused|Hnew].
    { rewrite IH by exact Hnd. rewrite filter_cons_False; [reflexivity|].
      unfold taken. tauto. }
    destruct (decide (dist n p <= threshold)) as [Hnear|Hfar].
    + rewrite IH by exact Hnd.
      rewrite (filter_cons_True (taken threshold p used)) by (by split).
      assert (Hsame : filter (taken threshold p ({[TargetArea.id n]} ∪ used)) rest
                      = filter (taken threshold p used) rest).
      { apply filter_ext_elem. intros q Hq. unfold taken.
        assert (TargetArea.id q ≠ TargetArea.id n).
        { intros Heq. apply Hn. rewrite <- Heq. by apply list_elem_of_fmap_2. }
        set_solver. }
      rewrite Hsame, <- app_assoc. cbn. f_equal. set_solver.
    + rewrite IH by exact Hnd. rewrite filter_cons_False; [reflexivity|].
      unfold taken. tauto.
Qed.

(** Without any assumption, the inner loop only appends. *)
Lemma scanNeighbors_prefix (threshold : R) p rest clusterPoints used :
  ∃ more, (scanNeighbors threshold p rest clusterPoints used).1 = clusterPoints ++ more.
Proof.
  revert clusterPoints used.
  induction rest as [|n rest IH]; intros clusterPoints used; cbn.
  - exists []. by rewrite app_nil_r.
  - repeat case_decide; try apply IH.
    destruct (IH (clusterPoints ++ [n]) ({[TargetArea.id n]} ∪ used)) as [more Hmore].
    exists (n :: more). by rewrite Hmore, <- app_assoc.
Qed.

(** Every cluster is built by [mkCluster] from a seed and a member list
    that starts with the seed. *)
Lemma clusterLoop_elem (threshold : R) l used (c : Cluster.t) :
  c ∈ clusterLoop threshold l used → ∃ p more, c = mkCluster p (p :: more).
Proof.
  revert used. induction l as [|p rest IH]; intros used; cbn.
  - intros H. by apply elem_of_nil in H.
  - case_decide; [apply IH|].
    destruct (scanNeighbors_prefix threshold p rest [p] ({[TargetArea.id p]} ∪ used))
      as [more Hmore].
    destruct (scanNeighbors threshold p rest [p] ({[TargetArea.id p]} ∪ used))
      as [clusterPoints used'] eqn:Hscan.
    cbn in Hmore. subst clusterPoints.
    intros [->|Hc]%elem_of_cons; [by exists p, more | by eapply IH].
Qed.

Lemma filter_split {A} (P Q : A → Prop)
    `{!∀ x, Decision (P x), !∀ x, Decision (Q x)} (l : list A) :
  filter P l ≡ₚ filter (λ x, P x ∧ Q x) l ++ filter (λ x, P x ∧ ¬ Q x) l.
Proof.
  induction l as [|a l IH]; [reflexivity|].
  destruct (decide (P a)) as [HP|HP]; [destruct (decide (Q a)) as [HQ|HQ]|].
  - rewrite (filter_cons_True P), (filter_cons_True (λ x, P x ∧ Q x)),
      (filter_cons_False (λ x, P x ∧ ¬ Q x)) by tauto.
    cbn. by rewrite IH.
  - rewrite (filter_cons_True P), (filter_cons_False (λ x, P x ∧ Q x)),
      (filter_cons_True (λ x, P x ∧ ¬ Q x)) by tauto.
    rewrite IH. apply Permutation_middle.
  - rewrite (filter_cons_False P), (filter_cons_False (λ x, P x ∧ Q x)),
      (filter_cons_False (λ x, P x ∧ ¬ Q x)) by tauto.
    exact IH.
Qed.

(** The outer loop hands out exactly the points whose id is not used. *)
Lemma clusterLoop_Permutation (threshold : R) l used :
  NoDup (TargetArea.id <$> l) →
  concat (Cluster.points <$> clusterLoop threshold l used) ≡ₚ filter (unused used) l.
Proof.
  revert used. induction l as [|p rest IH]; intros used Hnd; [reflexivity|].
  rewrite fmap_cons in Hnd. apply NoDup_cons in Hnd as [Hp Hnd].
  cbn [clusterLoop].
  destruct (decide (TargetArea.id p ∈ used)) as [Hused|Hnew].
  { rewrite IH by exact Hnd. rewrite filter_cons_False; [reflexivity|].
    unfold unused. tauto. }
  rewrite scanNeighbors_filter by exact Hnd.
  rewrite fmap_cons, (filter_cons_True (unused used)) by exact Hnew.
  cbn [concat mkCluster Cluster.points app]. apply Permutation_skip.
  rewrite IH by exact Hnd.
  set (near := λ q, dist q p <= threshold).
  assert (Htaken : filter (taken threshold p ({[TargetArea.id p]} ∪ used)) rest
                   = filter (λ q, unused used q ∧ near q) rest).
  { apply filter_ext_elem. intros q Hq. unfold taken, unused, near.
    assert (TargetArea.id q ≠ TargetArea.id p).
    { intros Heq. apply Hp. rewrite <- Heq. by apply list_elem_of_fmap_2. }
    set_solver. }
  rewrite Htaken.
  assert (Hrest : filter (unused (list_to_set
                    (TargetArea.id <$> filter (λ q, unused used q ∧ near q) rest)
                    ∪ ({[TargetArea.id p]} ∪ used))) rest
                  = filter (λ q, unused used q ∧ ¬ near q) rest).
  { apply filter_ext_elem. intros q Hq. unfold unused.
    assert (Hqp : TargetArea.id q ≠ TargetArea.id p).
    { intros Heq. apply Hp. rewrite <- Heq. by apply list_elem_of_fmap_2. }
    rewrite !not_elem_of_union, elem_of_list_to_set, not_elem_of_singleton.
    split.
    - intros (Hsel & _ & Hu). split; [exact Hu|]. intros Hnear. apply Hsel.
      apply list_elem_of_fmap_2, list_elem_of_filter. by repeat split.
    - intros [Hu Hfar]. repeat split; [|exact Hqp|exact Hu].
      intros (q' & Hid & Hq')%list_elem_of_fmap.
      apply list_elem_of_filter in Hq' as [[_ Hnear'] Hq'].
      assert (q = q') by (by apply (NoDup_fmap_inj_on TargetArea.id rest)).
      subst q'. by apply Hfar. }
  rewrite Hrest. symmetry. apply filter_split.
Qed.

Lemma avgX_mean l : avgX l = mean (TargetArea.x <$> l).
Proof.
  unfold avgX, mean. rewrite fold_left_add_sumR, Rplus_0_l, length_fmap. reflexivity.
Qed.

Lemma avgY_mean l : avgY l = mean (TargetArea.y <$> l).
Proof.
  unfold avgY, mean. rewrite fold_left_add_sumR, Rplus_0_l, length_fmap. reflexivity.
Qed.

(** A point of a duplicate-free concatenation sits in one segment only. *)
Lemma NoDup_concat_lookup {A} (ls : list (list A)) (i j : nat) (a b : list A) (v : A) :
  NoDup (concat ls) → ls !! i = Some a → ls !! j = Some b → v ∈ a → v ∈ b → i = j.
Proof.
  revert i j. induction ls as [|s ls IH]; intros i j Hnd Hi Hj Ha Hb; [done|].
  cbn in Hnd. apply NoDup_app in Hnd as (_ & Hdisj & Hnd).
  assert (Hin : ∀ k c, ls !! k = Some c → v ∈ c → v ∈ concat ls).
  { intros k c Hk Hc. apply list_elem_of_In, in_concat. exists c. split.
    - apply list_elem_of_In. by eapply list_elem_of_lookup_2.
    - by apply list_elem_of_In. }
  destruct i as [|i], j as [|j]; cbn in Hi, Hj; simplify_eq.
  - reflexivity.
  - exfalso. eapply Hdisj; [exact Ha|]. by eapply Hin.
  - exfalso. eapply Hdisj; [exact Hb|]. by eapply Hin.
  - f_equal. by eapply IH.
Qed.

End ClusteringFacts.

(** ** Evaluating the clustering on concrete points *)

Lemma dist_le_iff (q p : TargetArea.t) (threshold : R) :
  dist q p <= threshold
  ↔ 0 <= threshold
    ∧ (TargetArea.x q - TargetArea.x p) ^ 2 + (TargetArea.y q - TargetArea.y p) ^ 2
      <= threshold ^ 2.
Proof.
  unfold dist.
  set (d2 := (TargetArea.x q - TargetArea.x p) ^ 2 + (TargetArea.y q - TargetArea.y p) ^ 2).
  assert (Hd2 : 0 <= d2).
  { subst d2. pose proof (pow2_ge_0 (TargetArea.x q - TargetArea.x p)).
    pose proof (pow2_ge_0 (TargetArea.y q - TargetArea.y p)). lra. }
  pose proof (sqrt_pos d2) as Hs. pose proof (sqrt_def d2 Hd2) as Hdef.
  split.
  - intros Hle. split; [lra|]. rewrite <- Hdef. nra.
  - intros [Ht Hle]. destruct (Rle_dec (sqrt d2) threshold) as [|Hgt]; [assumption|].
    exfalso. apply Rnot_le_lt in Hgt. nra.
Qed.

Ltac decide_member :=
  match goal with
  | |- context [decide (?i ∈ ?s)] =>
      first [ rewrite (decide_True (P:=i ∈ s)) by set_solver
            | rewrite (decide_False (P:=i ∈ s)) by set_solver ]
  end.

Ltac decide_dist :=
  match goal with
  | |- context [decide (dist ?a ?b <= ?t)] =>
      first [ rewrite (decide_True (P:=dist a b <= t))
                by (apply dist_le_iff; cbn [TargetArea.x TargetArea.y point]; lra)
            | rewrite (decide_False (P:=dist a b <= t))
                by (rewrite dist_le_iff; cbn [TargetArea.x TargetArea.y point]; lra) ]
  end.

Ltac run_clusters :=
  unfold clusters, sortByX;
  repeat (cbn [foldr insertByX clusterLoop scanNeighbors app
               TargetArea.id TargetArea.x TargetArea.y point];
          first [ progress decide_R | decide_member | decide_dist ]).


(** The scenario of the specification: two points 2.24 apart merge at
    width 50 (threshold 4) and stay apart at width 20 (threshold 1.6). *)
Example clusters_scenario :
  let p1 := TargetArea.mk 1 10 10 0.9 "first" None in
  let p2 := TargetArea.mk 2 12 11 0.5 "second" None in
  clusters [p1; p2] 50 = [mkCluster p1 [p1; p2]]
  ∧ clusters [p1; p2] 20 = [mkCluster p1 [p1]; mkCluster p2 [p2]].
Proof.
  intros p1 p2. subst p1 p2. split; run_clusters; reflexivity.
Qed.

(** ** Clustering: coverage, order, zoom *)

Lemma filter_unused_empty (l : list TargetArea.t) : filter (unused ∅) l = l.
Proof.
  induction l as [|p l IH]; [reflexivity|].
  rewrite filter_cons_True by (unfold unused; apply not_elem_of_empty). by rewrite IH.
Qed.

Lemma NoDup_ids_sortByX (l : list TargetArea.t) :
  NoDup (TargetArea.id <$> l) → NoDup (TargetArea.id <$> sortByX l).
Proof. intros H. by rewrite sortByX_Permutation. Qed.

(** C1.  For unique ids the member lists of the clusters partition the
    input: together they are a rearrangement of it, every input point is in
    the member list at exactly one position of the result, every cluster has
    at least one member, and a cluster's centroid is the arithmetic mean of
    its members' x and of their y. *)
Theorem clusters_partition :
  ∀ (targetAreas : list TargetArea.t) (w : R),
  NoDup (TargetArea.id <$> targetAreas) →
  concat (Cluster.points <$> clusters targetAreas w) ≡ₚ targetAreas
  ∧ (∀ p, p ∈ targetAreas →
       ∃ i c, clusters targetAreas w !! i = Some c ∧ p ∈ Cluster.points c
         ∧ ∀ j c', clusters targetAreas w !! j = Some c' → p ∈ Cluster.points c' → j = i)
  ∧ (∀ c, c ∈ clusters targetAreas w →
       (1 <= length (Cluster.points c))%nat
       ∧ Cluster.x c = mean (TargetArea.x <$> Cluster.points c)
       ∧ Cluster.y c = mean (TargetArea.y <$> Cluster.points c)).
Proof.
  intros targetAreas w Hnd.
  assert (Hperm : concat (Cluster.points <$> clusters targetAreas w) ≡ₚ targetAreas).
  { unfold clusters. cbv zeta.
    rewrite clusterLoop_Permutation by (by apply NoDup_ids_sortByX).
    rewrite filter_unused_empty. apply sortByX_Permutation. }
  split; [exact Hperm|split].
  - intros p Hp.
    assert (Hndc : NoDup (concat (Cluster.points <$> clusters targetAreas w))).
    { rewrite Hperm. by apply (NoDup_fmap_1 TargetArea.id). }
    assert (Hin : p ∈ concat (Cluster.points <$> clusters targetAreas w)) by (by rewrite Hperm).
    apply list_elem_of_In, in_concat in Hin as (members & Hm & Hpm).
    apply list_elem_of_In, list_elem_of_lookup in Hm as [i Hi].
    apply list_lookup_fmap_Some in Hi as (c & -> & Hc).
    exists i, c. split; [exact Hc|]. split; [by apply list_elem_of_In|].
    intros j c' Hc' Hpc'.
    apply (NoDup_concat_lookup (Cluster.points <$> clusters targetAreas w)
             j i (Cluster.points c') (Cluster.points c) p); try assumption.
    + by rewrite list_lookup_fmap, Hc'.
    + by rewrite list_lookup_fmap, Hc.
    + by apply list_elem_of_In.
  - intros c Hc. unfold clusters in Hc.
    apply clusterLoop_elem in Hc as (p & more & ->).
    cbn [mkCluster Cluster.points Cluster.x Cluster.y].
    split; [cbn; lia|]. split; [apply avgX_mean | apply avgY_mean].
Qed.

Lemma clusters_partition_witness :
  concat (Cluster.points <$> clusters chainPoints 50) ≡ₚ chainPoints.
Proof.
  assert (Hnd : NoDup (TargetArea.id <$> chainPoints)).
  { cbn. repeat (apply NoDup_cons; split; [set_solver|]). apply NoDup_nil_2. }
  exact (proj1 (clusters_partition chainPoints 50 Hnd)).
Defined.

(** C2, as the code has it.  When the x coordinates are pairwise distinct,
    clustering any rearrangement of the point set gives the same list of
    clusters, hence the same membership sets. *)
Theorem clusters_order_independent :
  ∀ (targetAreas shuffled : list TargetArea.t) (w : R),
  NoDup (TargetArea.x <$> targetAreas) → targetAreas ≡ₚ shuffled →
  clusters shuffled w = clusters targetAreas w
  ∧ sameMembership (clusters targetAreas w) (clusters shuffled w).
Proof.
  intros targetAreas shuffled w Hnd Hperm.
  assert (Heq : clusters shuffled w = clusters targetAreas w).
  { unfold clusters. by rewrite (sortByX_unique targetAreas shuffled). }
  split; [exact Heq|]. rewrite Heq.
  split; intros c Hc; exists c; split; try assumption; reflexivity.
Qed.

Lemma clusters_order_independent_witness :
  clusters [point 2 13 50; point 1 10 50] 50 = clusters [point 1 10 50; point 2 13 50] 50.
Proof.
  assert (Hnd : NoDup (TargetArea.x <$> [point 1 10 50; point 2 13 50])).
  { cbn. apply NoDup_cons. split.
    - intros H%list_elem_of_singleton. lra.
    - apply NoDup_singleton. }
  assert (Hperm : [point 1 10 50; point 2 13 50] ≡ₚ [point 2 13 50; point 1 10 50])
    by apply Permutation_swap.
  exact (proj1 (clusters_order_independent _ _ 50 Hnd Hperm)).
Defined.

(** C2, as the claim has it, fails on ties in x: three points with the same
    x, 3 units apart, at threshold 4.  Seeded at the lowest point the greedy
    pass gives two clusters, seeded at the middle point it gives one. *)
Lemma clusters_order_dependent :
  tiedPoints ≡ₚ tiedPointsShuffled
  ∧ Cluster.points <$> clusters tiedPoints 50
    = [[point 1 50 0; point 2 50 3]; [point 3 50 6]]
  ∧ Cluster.points <$> clusters tiedPointsShuffled 50
    = [[point 2 50 3; point 1 50 0; point 3 50 6]]
  ∧ ¬ sameMembership (clusters tiedPoints 50) (clusters tiedPointsShuffled 50).
Proof.
  assert (H1 : clusters tiedPoints 50
               = [mkCluster (point 1 50 0) [point 1 50 0; point 2 50 3];
                  mkCluster (point 3 50 6) [point 3 50 6]]).
  { unfold tiedPoints. run_clusters. reflexivity. }
  assert (H2 : clusters tiedPointsShuffled 50
               = [mkCluster (point 2 50 3) [point 2 50 3; point 1 50 0; point 3 50 6]]).
  { unfold tiedPointsShuffled. run_clusters. reflexivity. }
  split; [apply Permutation_swap|]. rewrite H1, H2.
  split; [reflexivity|]. split; [reflexivity|].
  intros [Hsub _].
  destruct (Hsub (mkCluster (point 3 50 6) [point 3 50 6])) as (c' & Hc' & Hperm).
  { right. left. }
  apply list_elem_of_singleton in Hc'. subst c'.
  apply Permutation_length in Hperm. cbn in Hperm. lia.
Qed.

Lemma filter_sublist_impl {A} (P1 P2 : A → Prop)
    `{!∀ x, Decision (P1 x), !∀ x, Decision (P2 x)} (l : list A) :
  (∀ x, P1 x → P2 x) → filter P1 l `sublist_of` filter P2 l.
Proof.
  intros Himpl. induction l as [|a l IH]; [reflexivity|].
  destruct (decide (P1 a)) as [H1|H1].
  - rewrite (filter_cons_True P1), (filter_cons_True P2) by auto. by apply sublist_skip.
  - rewrite (filter_cons_False P1) by exact H1.
    destruct (decide (P2 a)) as [H2|H2].
    + rewrite (filter_cons_True P2) by exact H2. by apply sublist_cons.
    + by rewrite (filter_cons_False P2) by exact H2.
Qed.

(** The first cluster, for distinct ids: the seed is the first point in
    sorted order, the members are the seed and the later points within the
    threshold of it. *)
Lemma clusters_head (targetAreas : list TargetArea.t) (w : R) (p : TargetArea.t)
    (rest : list TargetArea.t) :
  NoDup (TargetArea.id <$> targetAreas) → sortByX targetAreas = p :: rest →
  head (clusters targetAreas w)
  = Some (mkCluster p (p :: filter (taken (w * 0.08) p ({[TargetArea.id p]} ∪ ∅)) rest)).
Proof.
  intros Hnd Hsort. apply NoDup_ids_sortByX in Hnd. rewrite Hsort in Hnd.
  rewrite fmap_cons in Hnd. apply NoDup_cons in Hnd as [_ Hnd].
  unfold clusters. cbv zeta. rewrite Hsort. cbn [clusterLoop].
  rewrite decide_False by apply not_elem_of_empty.
  rewrite scanNeighbors_filter by exact Hnd. reflexivity.
Qed.

Lemma clusters_chainPoints_50 :
  clusters chainPoints 50
  = [mkCluster (point 1 10 50) [point 1 10 50; point 2 13 50];
     mkCluster (point 3 16 50) [point 3 16 50; point 4 19 50]].
Proof. unfold chainPoints. run_clusters. reflexivity. Qed.

Lemma clusters_chainPoints_100 :
  clusters chainPoints 100
  = [mkCluster (point 1 10 50) [point 1 10 50; point 2 13 50; point 3 16 50];
     mkCluster (point 4 19 50) [point 4 19 50]].
Proof. unfold chainPoints. run_clusters. reflexivity. Qed.

(** C3, as the code has it.  For unique ids and [w1 <= w2], the merge
    threshold does not decrease and the first cluster, the one seeded at the
    point of least x, keeps every member it has at [w1]: its member count
    does not decrease, and if it is a multi-member cluster at [w1] it is one
    at [w2]. *)
Theorem first_cluster_monotone :
  ∀ (targetAreas : list TargetArea.t) (w1 w2 : R) (c1 c2 : Cluster.t),
  NoDup (TargetArea.id <$> targetAreas) → w1 <= w2 →
  head (clusters targetAreas w1) = Some c1 →
  head (clusters targetAreas w2) = Some c2 →
  w1 * 0.08 <= w2 * 0.08
  ∧ Cluster.points c1 `sublist_of` Cluster.points c2
  ∧ (length (Cluster.points c1) <= length (Cluster.points c2))%nat
  ∧ (Cluster.isCluster c1 = true → Cluster.isCluster c2 = true).
Proof.
  intros targetAreas w1 w2 c1 c2 Hnd Hw H1 H2.
  split; [lra|].
  destruct (sortByX targetAreas) as [|p rest] eqn:Hsort.
  { unfold clusters in H1. rewrite Hsort in H1. discriminate. }
  rewrite (clusters_head targetAreas w1 p rest Hnd Hsort) in H1.
  rewrite (clusters_head targetAreas w2 p rest Hnd Hsort) in H2.
  injection H1 as <-. injection H2 as <-.
  cbn [mkCluster Cluster.points Cluster.isCluster].
  assert (Hsub : (p :: filter (taken (w1 * 0.08) p ({[TargetArea.id p]} ∪ ∅)) rest)
                 `sublist_of`
                 (p :: filter (taken (w2 * 0.08) p ({[TargetArea.id p]} ∪ ∅)) rest)).
  { apply sublist_skip, filter_sublist_impl. unfold taken. intros q [Hq Hd].
    split; [exact Hq|lra]. }
  pose proof (sublist_length _ _ Hsub) as Hlen.
  split; [exact Hsub|]. split; [exact Hlen|].
  rewrite !bool_decide_eq_true. lia.
Qed.

Lemma first_cluster_monotone_witness :
  50 * 0.08 <= 100 * 0.08
  ∧ [point 1 10 50; point 2 13 50]
      `sublist_of` [point 1 10 50; point 2 13 50; point 3 16 50]
  ∧ (2 <= 3)%nat
  ∧ (true = true → true = true).
Proof.
  assert (Hnd : NoDup (TargetArea.id <$> chainPoints)).
  { cbn. repeat (apply NoDup_cons; split; [set_solver|]). apply NoDup_nil_2. }
  assert (Hw : 50 <= 100) by lra.
  assert (H1 : head (clusters chainPoints 50)
               = Some (mkCluster (point 1 10 50) [point 1 10 50; point 2 13 50])).
  { by rewrite clusters_chainPoints_50. }
  assert (H2 : head (clusters chainPoints 100)
               = Some (mkCluster (point 1 10 50)
                         [point 1 10 50; point 2 13 50; point 3 16 50])).
  { by rewrite clusters_chainPoints_100. }
  exact (first_cluster_monotone chainPoints 50 100 _ _ Hnd Hw H1 H2).
Defined.

(** C3, as the claim has it, fails: four points in a row, 3 units apart.
    At width 50 (threshold 4) they pair up, 4 points in multi-member
    clusters; at width 100 (threshold 8) the first seed takes three and the
    fourth stays alone, 3 points in multi-member clusters. *)
Lemma mergedCount_not_monotone :
  50 <= 100
  ∧ Cluster.points <$> clusters chainPoints 50
    = [[point 1 10 50; point 2 13 50]; [point 3 16 50; point 4 19 50]]
  ∧ Cluster.points <$> clusters chainPoints 100
    = [[point 1 10 50; point 2 13 50; point 3 16 50]; [point 4 19 50]]
  ∧ mergedCount (clusters chainPoints 50) = 4%nat
  ∧ mergedCount (clusters chainPoints 100) = 3%nat.
Proof.
  rewrite clusters_chainPoints_50, clusters_chainPoints_100.
  split; [lra|]. repeat split.
Qed.

(** ** Cluster drill-down *)

(** C7 at a failing input.  Two points on a horizontal line, one cluster
    at the base width of the 600 x 400 container: the rectangle set by the
    drill-down has its origin taken from the square of side [dim] and its
    height from the aspect adjustment, so its centre is not the centre of
    the bounding box. *)
Theorem drillDownViewBox_off_centre :
  let points := [point 1 40 50; point 2 50 50] in
  Cluster.points <$> clusters points (ViewBox.w (getBaseViewBox 600 400)) = [points]
  ∧ clusterBounds points = (40, 50, 50, 50)
  ∧ drillDownViewBox 600 400 points = ViewBox.mk 37.5 42.5 15 10
  ∧ centreY (drillDownViewBox 600 400 points) = 47.5
  ∧ ¬ centredOnBounds (drillDownViewBox 600 400 points) (clusterBounds points).
Proof.
  intros points.
  assert (Hb : clusterBounds points = (40, 50, 50, 50)).
  { subst points. unfold clusterBounds. cbn. decide_R. reflexivity. }
  assert (Hv : drillDownViewBox 600 400 points = ViewBox.mk 37.5 42.5 15 10).
  { unfold drillDownViewBox. rewrite Hb. unfold aspect.
    replace (Rmax (50 - 40) (50 - 50)) with 10 by (rewrite Rmax_left; lra).
    decide_R.
    replace (Rmax (50 - 40 + 10 * 0.5) 10) with 15 by (rewrite Rmax_left; lra).
    replace (Rmax (50 - 50 + 10 * 0.5) 10) with 10 by (rewrite Rmax_right; lra).
    replace (Rmax 15 10) with 15 by (rewrite Rmax_left; lra).
    f_equal; lra. }
  split.
  { rewrite getBaseViewBox_600_400. subst points. cbn [ViewBox.w].
    run_clusters. reflexivity. }
  rewrite Hv, Hb. unfold centredOnBounds, centreY, centreX. cbn.
  split; [reflexivity|]. split; [reflexivity|]. split; [lra|].
  intros [_ Hy]. lra.
Qed.

(** In a landscape container no drill-down rectangle is centred on the
    bounding box of the members: both centres would need
    [targetH * aspect = dim = targetH] with [targetH >= 10]. *)
Lemma drillDownViewBox_landscape_off_centre (width height : R) (points : list TargetArea.t) :
  aspect width height > 1 →
  ¬ centredOnBounds (drillDownViewBox width height points) (clusterBounds points).
Proof.
  intros Hasp. unfold drillDownViewBox.
  destruct (clusterBounds points) as [[[minX maxX] minY] maxY].
  rewrite (decide_True (P:=aspect width height > 1)) by assumption.
  unfold centredOnBounds, centreX, centreY. cbn.
  set (pad := if decide (Rmax (maxX - minX) (maxY - minY) * 0.5 = 0) then 10
              else Rmax (maxX - minX) (maxY - minY) * 0.5).
  set (tw := Rmax (maxX - minX + pad) 10).
  set (th := Rmax (maxY - minY + pad) 10).
  pose proof (Rmax_r (maxY - minY + pad) 10) as Hth. fold th in Hth.
  intros [Hx Hy]. nra.
Qed.

(** * Further properties of the code *)

(** ** Wheel zoom *)

Lemma aspect_pos (width height : R) : 0 < width → 0 < height → 0 < aspect width height.
Proof. intros Hw Hh. unfold aspect. by apply Rdiv_lt_0_compat. Qed.

Lemma getBaseViewBox_proportioned (width height : R) :
  0 < width → 0 < height →
  ViewBox.w (getBaseViewBox width height)
  = ViewBox.h (getBaseViewBox width height) * aspect width height
  ∧ 0 < ViewBox.h (getBaseViewBox width height).
Proof.
  intros Hw Hh. pose proof (aspect_pos width height Hw Hh) as Ha.
  unfold getBaseViewBox. cbn. destruct (decide (aspect width height > 1)).
  - split; lra.
  - split; [field; lra|]. apply Rdiv_lt_0_compat; lra.
Qed.

(** X2.  Whatever the rectangle, the factor and the cursor, the wheel zoom
    leaves a rectangle whose width is between 2 and the base width. *)
Theorem wheelViewBox_width_bounds :
  ∀ (width height factor mx my : R) (prev : ViewBox.t),
  2 <= ViewBox.w (wheelViewBox width height factor mx my prev)
    <= ViewBox.w (getBaseViewBox width height).
Proof.
  intros width height factor mx my prev.
  pose proof (getBaseViewBox_w_ge_100 width height) as Hbase.
  unfold wheelViewBox.
  set (base := getBaseViewBox width height) in *.
  set (bw := ViewBox.w base) in *.
  repeat (case_decide; cbn [ViewBox.w]); fold bw; lra.
Qed.

(** The wheel zoom on a rectangle of the container's aspect ratio. *)
Lemma wheelViewBox_invariant :
  ∀ (width height factor mx my : R) (prev : ViewBox.t),
  0 < width → 0 < height →
  ViewBox.w prev = ViewBox.h prev * aspect width height →
  proportioned width height (wheelViewBox width height factor mx my prev)
  ∧ originClamped (getBaseViewBox width height)
      (wheelViewBox width height factor mx my prev).
Proof.
  intros width height factor mx my prev Hw Hh Hprev.
  pose proof (aspect_pos width height Hw Hh) as Ha.
  pose proof (getBaseViewBox_w_ge_100 width height) as Hbase.
  destruct (getBaseViewBox_proportioned width height Hw Hh) as [Hbp Hbh].
  assert (H2 : 2 / aspect width height * aspect width height = 2) by (field; lra).
  assert (H2pos : 0 < 2 / aspect width height) by (apply Rdiv_lt_0_compat; lra).
  unfold proportioned, originClamped, wheelViewBox.
  set (base := getBaseViewBox width height) in *.
  set (a := aspect width height) in *.
  set (bx := ViewBox.x base) in *. set (bw := ViewBox.w base) in *.
  set (by_ := ViewBox.y base) in *. set (bh := ViewBox.h base) in *.
  set (pw := ViewBox.w prev) in *. set (ph := ViewBox.h prev) in *.
  set (inv2 := 2 / a) in *.
  assert (Hpf : pw * factor = ph * factor * a) by (rewrite Hprev; ring).
  set (phf := ph * factor) in *. set (pwf := pw * factor) in *.
  assert (Hinv : inv2 <= bh) by nra.
  repeat (case_decide; cbn [ViewBox.x ViewBox.y ViewBox.w ViewBox.h]);
    fold bx bw by_ bh; repeat split; try lra; try nra.
Qed.

(** X3.  In a container of positive size, the wheel zoom of a rectangle that
    has the container's aspect ratio gives a rectangle that has it too, is
    at least 2 wide, and whose origin lies within the base rectangle widened
    by half its extent on each side. *)
Theorem wheelViewBox_well_formed :
  ∀ (width height factor mx my : R) (prev : ViewBox.t),
  0 < width → 0 < height →
  ViewBox.w prev = ViewBox.h prev * aspect width height →
  proportioned width height (wheelViewBox width height factor mx my prev)
  ∧ originClamped (getBaseViewBox width height)
      (wheelViewBox width height factor mx my prev).
Proof.
  intros width height factor mx my prev Hw Hh Hprev.
  by apply wheelViewBox_invariant.
Qed.

Lemma wheelViewBox_well_formed_witness :
  proportioned 600 400 (wheelViewBox 600 400 0.9 300 200 (ViewBox.mk (-25) 0 150 100))
  ∧ originClamped (getBaseViewBox 600 400)
      (wheelViewBox 600 400 0.9 300 200 (ViewBox.mk (-25) 0 150 100)).
Proof.
  apply (wheelViewBox_well_formed 600 400 0.9 300 200 (ViewBox.mk (-25) 0 150 100)).
  - lra.
  - lra.
  - unfold aspect. cbn. lra.
Defined.

(** X4.  Zoom at the cursor: unless the result is the base rectangle, on
    each axis where the new rectangle lies strictly inside the buffered
    bounds the data-space coordinate under the cursor is the same before and
    after the wheel zoom. *)
Theorem wheelViewBox_anchors_cursor :
  ∀ (width height factor mx my : R) (prev : ViewBox.t),
  let base := getBaseViewBox width height in
  let next := wheelViewBox width height factor mx my prev in
  next ≠ base →
  (ViewBox.x base - ViewBox.w base * 0.5 < ViewBox.x next
   ∧ ViewBox.x next + ViewBox.w next < ViewBox.x base + ViewBox.w base + ViewBox.w base * 0.5 →
   svgX width next mx = svgX width prev mx)
  ∧ (ViewBox.y base - ViewBox.h base * 0.5 < ViewBox.y next
     ∧ ViewBox.y next + ViewBox.h next < ViewBox.y base + ViewBox.h base + ViewBox.h base * 0.5 →
     svgY height next my = svgY height prev my).
Proof.
  intros width height factor mx my prev base next Hne.
  subst next. unfold wheelViewBox in *. fold base in Hne |- *.
  set (bx := ViewBox.x base) in *. set (bw := ViewBox.w base) in *.
  set (by_ := ViewBox.y base) in *. set (bh := ViewBox.h base) in *.
  unfold svgX, svgY in *.
  repeat (case_decide; cbn [ViewBox.x ViewBox.y ViewBox.w ViewBox.h] in * );
    try (exfalso; by apply Hne);
    (split; intros [Hlo Hhi]; try lra).
Qed.

Lemma wheelViewBox_sample :
  wheelViewBox 600 400 0.9 300 200 (ViewBox.mk (-25) 0 150 100)
  = ViewBox.mk (-17.5) 5 135 90.
Proof.
  unfold wheelViewBox, svgX, svgY. rewrite getBaseViewBox_600_400. unfold aspect.
  cbn [ViewBox.x ViewBox.y ViewBox.w ViewBox.h]. decide_R.
  rewrite (decide_False (P:=Rabs (150 * 0.9 - 150) < 0.1)).
  - f_equal; lra.
  - rewrite Rabs_left by lra. lra.
Qed.

Lemma wheelViewBox_anchors_cursor_witness :
  svgX 600 (wheelViewBox 600 400 0.9 300 200 (ViewBox.mk (-25) 0 150 100)) 300
  = svgX 600 (ViewBox.mk (-25) 0 150 100) 300
  ∧ svgY 400 (wheelViewBox 600 400 0.9 300 200 (ViewBox.mk (-25) 0 150 100)) 200
    = svgY 400 (ViewBox.mk (-25) 0 150 100) 200.
Proof.
  assert (Hne : wheelViewBox 600 400 0.9 300 200 (ViewBox.mk (-25) 0 150 100)
                ≠ getBaseViewBox 600 400).
  { rewrite wheelViewBox_sample, getBaseViewBox_600_400. intros H. injection H. lra. }
  destruct (wheelViewBox_anchors_cursor 600 400 0.9 300 200 (ViewBox.mk (-25) 0 150 100) Hne)
    as [Hx Hy].
  split.
  - apply Hx. rewrite wheelViewBox_sample, getBaseViewBox_600_400. cbn. lra.
  - apply Hy. rewrite wheelViewBox_sample, getBaseViewBox_600_400. cbn. lra.
Defined.

(** X1.  The rectangle a wheel event sets is [wheelViewBox] at the factor
    [wheelFactor deltaY]; that factor lies between 0.9 and 1.1 whatever the
    scroll amount, is below 1 exactly for a negative [deltaY] (zoom in) and
    above 1 exactly for a positive one (zoom out). *)
Theorem wheelFactor_bounds :
  ∀ (e : WheelEvent.t) (width height : R) (st : State.t),
  State.viewBox (handleWheel width height e st)
  = wheelViewBox width height (wheelFactor (WheelEvent.deltaY e))
      (WheelEvent.clientX e - WheelEvent.rectLeft e)
      (WheelEvent.clientY e - WheelEvent.rectTop e) (State.viewBox st)
  ∧ 0.9 <= wheelFactor (WheelEvent.deltaY e) <= 1.1
  ∧ (WheelEvent.deltaY e < 0 ↔ wheelFactor (WheelEvent.deltaY e) < 1)
  ∧ (WheelEvent.deltaY e > 0 ↔ wheelFactor (WheelEvent.deltaY e) > 1).
Proof.
  intros e width height st. split; [reflexivity|].
  generalize (WheelEvent.deltaY e). intros dy.
  unfold wheelFactor, sign. cbv zeta.
  destruct (decide (dy > 0)) as [Hpos|Hnpos].
  - rewrite (Rabs_pos_eq dy) by lra.
    destruct (Rle_dec dy 100).
    + rewrite Rmin_left by lra. repeat split; intros; lra.
    + rewrite Rmin_right by lra. repeat split; intros; lra.
  - destruct (decide (dy < 0)) as [Hneg|Hnneg].
    + rewrite (Rabs_left dy) by lra.
      destruct (Rle_dec (- dy) 100).
      * rewrite Rmin_left by lra. repeat split; intros; lra.
      * rewrite Rmin_right by lra. repeat split; intros; lra.
    + repeat split; intros; lra.
Qed.

(** X5.  A wheel zoom whose scaled width exceeds the base width less 0.1
    returns the base rectangle itself, origin included: zooming out at the
    full view, or to within 0.1 of it, resets the view. *)
Theorem wheelViewBox_snaps_to_base :
  ∀ (width height factor mx my : R) (prev : ViewBox.t),
  ViewBox.w (getBaseViewBox width height) - 0.1 < ViewBox.w prev * factor →
  wheelViewBox width height factor mx my prev = getBaseViewBox width height.
Proof.
  intros width height factor mx my prev Hnear.
  pose proof (getBaseViewBox_w_ge_100 width height) as Hbase.
  unfold wheelViewBox.
  set (base := getBaseViewBox width height) in *.
  set (bw := ViewBox.w base) in *.
  destruct (decide (ViewBox.w prev * factor > bw)) as [Hover|Hin]; cbv zeta beta iota.
  - rewrite (decide_False (P:=bw < 2)) by lra. cbv zeta beta iota.
    rewrite (decide_True (P:=Rabs (bw - bw) < 0.1)); [reflexivity|].
    replace (bw - bw) with 0 by ring. rewrite Rabs_R0. lra.
  - rewrite (decide_False (P:=ViewBox.w prev * factor < 2)) by lra. cbv zeta beta iota.
    rewrite (decide_True (P:=Rabs (ViewBox.w prev * factor - bw) < 0.1)); [reflexivity|].
    apply Rabs_def1; lra.
Qed.

Lemma wheelViewBox_snaps_to_base_witness :
  wheelViewBox 600 400 1.1 300 200 (getBaseViewBox 600 400) = getBaseViewBox 600 400.
Proof.
  apply wheelViewBox_snaps_to_base. rewrite getBaseViewBox_600_400. cbn. lra.
Defined.

Lemma zoomViewBox_proportioned (width height factor : R) (prev : ViewBox.t) :
  0 < width → 0 < height →
  proportioned width height prev →
  proportioned width height (zoomViewBox width height factor prev).
Proof.
  intros Hw Hh [Hp H2].
  pose proof (getBaseViewBox_w_ge_100 width height) as Hbase.
  destruct (getBaseViewBox_proportioned width height Hw Hh) as [Hbp Hbh].
  unfold zoomViewBox, proportioned.
  repeat (case_decide; cbn [ViewBox.w ViewBox.h]); try (split; lra).
  split; [rewrite Hp; ring | lra].
Qed.

Lemma drillDownViewBox_proportioned (width height : R) (points : list TargetArea.t) :
  0 < width → 0 < height →
  proportioned width height (drillDownViewBox width height points).
Proof.
  intros Hw Hh. pose proof (aspect_pos width height Hw Hh) as Ha.
  unfold drillDownViewBox, proportioned.
  destruct (clusterBounds points) as [[[minX maxX] minY] maxY].
  set (pad := if decide (Rmax (maxX - minX) (maxY - minY) * 0.5 = 0) then 10
              else Rmax (maxX - minX) (maxY - minY) * 0.5).
  pose proof (Rmax_r (maxX - minX + pad) 10) as Htw.
  pose proof (Rmax_r (maxY - minY + pad) 10) as Hth.
  set (tw := Rmax (maxX - minX + pad) 10) in *.
  set (th := Rmax (maxY - minY + pad) 10) in *.
  case_decide; cbn [ViewBox.w ViewBox.h].
  - split; [reflexivity | nra].
  - split; [field; lra | lra].
Qed.

Lemma dispatch_proportioned (width height : R) (g : Gesture) (st : State.t) :
  0 < width → 0 < height →
  proportioned width height (State.viewBox st) →
  proportioned width height (State.viewBox (dispatch width height g st)).
Proof.
  intros Hw Hh Hp. destruct g as [e|e|e| | |target| | | | ]; cbn [dispatch].
  - cbn. apply wheelViewBox_invariant; try assumption. apply Hp.
  - unfold handleMouseDown. by case_decide.
  - unfold handleMouseMove. destruct (State.isDragging st); cbn [negb]; [|exact Hp].
    case_decide; cbn; [exact Hp|]. exact Hp.
  - exact Hp.
  - exact Hp.
  - destruct target as [cluster|]; cbn [click].
    + unfold handleClusterClick. case_decide; [exact Hp|].
      destruct (Cluster.isCluster cluster); cbn [negb].
      * cbn. by apply drillDownViewBox_proportioned.
      * by destruct (Cluster.points cluster).
    + unfold handleContainerClick. by case_decide.
  - unfold handleContainerClick. case_decide; cbn; by apply zoomViewBox_proportioned.
  - unfold handleContainerClick. case_decide; cbn; by apply zoomViewBox_proportioned.
  - assert (Hb : proportioned width height (getBaseViewBox width height)).
    { pose proof (getBaseViewBox_w_ge_100 width height).
      destruct (getBaseViewBox_proportioned width height Hw Hh). split; [assumption|lra]. }
    unfold handleContainerClick. case_decide; cbn; exact Hb.
  - exact Hp.
Qed.

(** X7.  In a container of positive size, after any sequence of wheel,
    mouse, click, button and close events from the mounted state, cluster
    drill-downs included, the view box has the container's aspect ratio and
    is at least 2 units wide. *)
Theorem run_keeps_proportions :
  ∀ (width height : R) (gs : list Gesture),
  0 < width → 0 < height →
  proportioned width height (State.viewBox (run width height gs (mountState width height))).
Proof.
  intros width height gs Hw Hh.
  assert (Hgen : ∀ st, proportioned width height (State.viewBox st) →
                       proportioned width height (State.viewBox (run width height gs st))).
  { induction gs as [|g gs IH]; intros st Hp; [exact Hp|].
    cbn. apply IH. by apply dispatch_proportioned. }
  apply Hgen. cbn.
  pose proof (getBaseViewBox_w_ge_100 width height).
  destruct (getBaseViewBox_proportioned width height Hw Hh). split; [assumption|lra].
Qed.

Lemma run_keeps_proportions_witness :
  proportioned 600 400
    (State.viewBox
       (run 600 400
          [Wheel (WheelEvent.mk (-100) 300 200 0 0); ZoomInButton;
           Click (Some (mkCluster (point 1 40 50) [point 1 40 50; point 2 50 50]))]
          (mountState 600 400))).
Proof.
  apply run_keeps_proportions; lra.
Defined.

(** ** Step zoom, drags and buttons *)

(** X6.  Step zoom by a factor and then by its inverse gives back the
    rectangle, origin and extent, when the width stays between 2 and the
    base width before and after the first step. *)
Theorem zoomViewBox_inverse :
  ∀ (width height factor : R) (prev : ViewBox.t),
  let base := getBaseViewBox width height in
  factor ≠ 0 →
  2 <= ViewBox.w prev <= ViewBox.w base →
  2 <= ViewBox.w prev * factor <= ViewBox.w base →
  zoomViewBox width height (1 / factor) (zoomViewBox width height factor prev) = prev.
Proof.
  intros width height factor prev base Hf Hw Hwf.
  unfold zoomViewBox. fold base.
  rewrite (decide_False (P:=ViewBox.w prev * factor > ViewBox.w base)) by lra.
  rewrite (decide_False (P:=ViewBox.w prev * factor < 2)) by lra.
  cbn [ViewBox.x ViewBox.y ViewBox.w ViewBox.h].
  assert (Hback : ViewBox.w prev * factor * (1 / factor) = ViewBox.w prev) by (field; exact Hf).
  rewrite Hback.
  rewrite (decide_False (P:=ViewBox.w prev > ViewBox.w base)) by lra.
  rewrite (decide_False (P:=ViewBox.w prev < 2)) by lra.
  destruct prev as [x y w h]. cbn. f_equal; field; exact Hf.
Qed.

Lemma zoomViewBox_inverse_witness :
  zoomViewBox 600 400 (1 / 0.75) (zoomViewBox 600 400 0.75 (ViewBox.mk (-25) 0 150 100))
  = ViewBox.mk (-25) 0 150 100.
Proof.
  apply (zoomViewBox_inverse 600 400 0.75 (ViewBox.mk (-25) 0 150 100)).
  - lra.
  - rewrite getBaseViewBox_600_400. cbn. lra.
  - rewrite getBaseViewBox_600_400. cbn. lra.
Defined.

(** One move during a drag, in closed form. *)
Lemma handleMouseMove_dragging (width height : R) (e : MouseEvent.t) (st : State.t) :
  State.isDragging st = true →
  let dx := MouseEvent.clientX e - fst (State.dragStart st) in
  let dy := MouseEvent.clientY e - snd (State.dragStart st) in
  handleMouseMove width height e st
  = {| State.selectedTargetId := State.selectedTargetId st;
       State.viewBox :=
         {| ViewBox.x := ViewBox.x (State.viewBox st) - dx * (ViewBox.w (State.viewBox st) / width);
            ViewBox.y := ViewBox.y (State.viewBox st) - dy * (ViewBox.h (State.viewBox st) / height);
            ViewBox.w := ViewBox.w (State.viewBox st);
            ViewBox.h := ViewBox.h (State.viewBox st) |};
       State.isDragging := true;
       State.dragStart := position e;
       State.dragDistance := State.dragDistance st + (Rabs dx + Rabs dy) |}.
Proof.
  intros Hdrag dx dy. unfold handleMouseMove. rewrite Hdrag. cbn [negb].
  fold dx dy. destruct (decide (dx = 0 ∧ dy = 0)) as [[Hx Hy]|Hmoved].
  - f_equal.
    + destruct (State.viewBox st) as [x y w h]. cbn. f_equal; rewrite ?Hx, ?Hy; ring.
    + destruct (State.dragStart st) as [sx sy]. unfold position. subst dx dy. cbn in *.
      f_equal; lra.
  - reflexivity.
Qed.

(** X8.  A drag over any sequence of moves: the last recorded position is
    that of the last move; the origin has moved by the net pixel
    displacement scaled by extent over container extent, whatever the path;
    the extent is unchanged; the accumulated distance has grown by at least
    the Manhattan length of the net displacement; the selection is
    untouched. *)
Theorem drag_path :
  ∀ (width height : R) (es : list MouseEvent.t) (st : State.t),
  State.isDragging st = true →
  let st' := run width height (MouseMove <$> es) st in
  let dx := fst (State.dragStart st') - fst (State.dragStart st) in
  let dy := snd (State.dragStart st') - snd (State.dragStart st) in
  State.dragStart st' = default (State.dragStart st) (last (position <$> es))
  ∧ ViewBox.x (State.viewBox st')
    = ViewBox.x (State.viewBox st) - dx * (ViewBox.w (State.viewBox st) / width)
  ∧ ViewBox.y (State.viewBox st')
    = ViewBox.y (State.viewBox st) - dy * (ViewBox.h (State.viewBox st) / height)
  ∧ ViewBox.w (State.viewBox st') = ViewBox.w (State.viewBox st)
  ∧ ViewBox.h (State.viewBox st') = ViewBox.h (State.viewBox st)
  ∧ State.dragDistance st + (Rabs dx + Rabs dy) <= State.dragDistance st'
  ∧ State.selectedTargetId st' = State.selectedTargetId st
  ∧ State.isDragging st' = true.
Proof.
  intros width height es. induction es as [|e es IH]; intros st Hdrag.
  - cbn. rewrite !Rminus_diag, Rabs_R0. repeat split; try lra; assumption.
  - cbn [fmap list_fmap run foldl dispatch].
    pose proof (handleMouseMove_dragging width height e st Hdrag) as Hstep.
    cbv zeta in Hstep.
    set (st1 := handleMouseMove width height e st) in *.
    assert (Hdrag1 : State.isDragging st1 = true) by (by rewrite Hstep).
    specialize (IH st1 Hdrag1). cbv zeta in IH. unfold run in IH.
    destruct IH as (Hstart & Hx & Hy & Hw & Hh & Hd & Hsel & Hdr).
    set (st' := foldl (λ st g, dispatch width height g st) st1 (MouseMove <$> es)) in *.
    assert (Hs1 : State.dragStart st1 = position e) by (by rewrite Hstep).
    assert (Hv1 : State.viewBox st1 =
      {| ViewBox.x := ViewBox.x (State.viewBox st)
           - (MouseEvent.clientX e - fst (State.dragStart st)) * (ViewBox.w (State.viewBox st) / width);
         ViewBox.y := ViewBox.y (State.viewBox st)
           - (MouseEvent.clientY e - snd (State.dragStart st)) * (ViewBox.h (State.viewBox st) / height);
         ViewBox.w := ViewBox.w (State.viewBox st);
         ViewBox.h := ViewBox.h (State.viewBox st) |}) by (by rewrite Hstep).
    assert (Hd1 : State.dragDistance st1 = State.dragDistance st
              + (Rabs (MouseEvent.clientX e - fst (State.dragStart st))
                 + Rabs (MouseEvent.clientY e - snd (State.dragStart st)))) by (by rewrite Hstep).
    assert (Hsel1 : State.selectedTargetId st1 = State.selectedTargetId st) by (by rewrite Hstep).
    rewrite Hs1, Hv1 in *. cbn [ViewBox.x ViewBox.y ViewBox.w ViewBox.h] in *.
    unfold position in Hx, Hy, Hd. cbn [fst snd] in Hx, Hy, Hd.
    split; [|split; [|split; [|split; [|split; [|split; [|split]]]]]].
    + rewrite Hstart, last_cons. by destruct (last (position <$> es)).
    + rewrite Hx. ring.
    + rewrite Hy. ring.
    + exact Hw.
    + exact Hh.
    + rewrite Hd1 in Hd.
      pose proof (Rabs_triang (fst (State.dragStart st') - MouseEvent.clientX e)
                    (MouseEvent.clientX e - fst (State.dragStart st))) as Htx.
      pose proof (Rabs_triang (snd (State.dragStart st') - MouseEvent.clientY e)
                    (MouseEvent.clientY e - snd (State.dragStart st))) as Hty.
      replace (fst (State.dragStart st') - MouseEvent.clientX e
               + (MouseEvent.clientX e - fst (State.dragStart st)))
        with (fst (State.dragStart st') - fst (State.dragStart st)) in Htx by ring.
      replace (snd (State.dragStart st') - MouseEvent.clientY e
               + (MouseEvent.clientY e - snd (State.dragStart st)))
        with (snd (State.dragStart st') - snd (State.dragStart st)) in Hty by ring.
      lra.
    + by rewrite Hsel, Hsel1.
    + exact Hdr.
Qed.

Lemma drag_path_witness :
  let st := handleMouseDown (MouseEvent.mk 0 100 100) initialState in
  let st' := run 600 400 (MouseMove <$> [MouseEvent.mk 0 103 102; MouseEvent.mk 0 100 100]) st in
  State.dragStart st' = (100, 100)
  ∧ ViewBox.x (State.viewBox st')
    = ViewBox.x (State.viewBox st)
      - (fst (State.dragStart st') - fst (State.dragStart st))
        * (ViewBox.w (State.viewBox st) / 600).
Proof.
  intros st st'.
  assert (Hdrag : State.isDragging st = true).
  { subst st. unfold handleMouseDown. cbn.
    rewrite decide_False by (intros H; apply H; reflexivity). reflexivity. }
  pose proof (drag_path 600 400 [MouseEvent.mk 0 103 102; MouseEvent.mk 0 100 100] st Hdrag)
    as (Hstart & Hx & _).
  split; [exact Hstart | exact Hx].
Defined.

(** X9.  A press and release of the primary button followed by the click
    of a zoom or reset button clears the selection: the button's click
    reaches the container's click handler with the accumulator reset by the
    press.  The close button of the details panel clears it too. *)
Theorem zoom_button_clears_selection :
  ∀ (width height : R) (e : MouseEvent.t) (st : State.t) (b : Gesture),
  MouseEvent.button e = 0%Z →
  b = ZoomInButton ∨ b = ZoomOutButton ∨ b = ResetButton →
  State.selectedTargetId (run width height [MouseDown e; MouseUp; b] st) = None
  ∧ State.selectedTargetId (run width height [MouseDown e; MouseUp; CloseDetails] st) = None.
Proof.
  intros width height e st b He Hb.
  assert (Hd : State.dragDistance (handleMouseUp (handleMouseDown e st)) = 0).
  { unfold handleMouseDown. rewrite decide_False by (intros H; by apply H). reflexivity. }
  split; [|reflexivity].
  destruct Hb as [->|[->| ->]]; cbn [run foldl dispatch];
    unfold handleContainerClick; cbn [handleZoom resetZoom setViewBox State.dragDistance];
    rewrite Hd; rewrite decide_True by lra; reflexivity.
Qed.

Lemma zoom_button_clears_selection_witness :
  State.selectedTargetId
    (run 600 400 [MouseDown (MouseEvent.mk 0 10 10); MouseUp; ZoomInButton]
       (setSelectedTargetId (Some 3%Z) initialState)) = None.
Proof.
  apply (zoom_button_clears_selection 600 400 (MouseEvent.mk 0 10 10)
           (setSelectedTargetId (Some 3%Z) initialState) ZoomInButton).
  - reflexivity.
  - by left.
Defined.

(** ** Shape of the clusters *)

Section ClusterShape.

Implicit Types (p q : TargetArea.t) (l rest : list TargetArea.t) (used : gset Z).




(** What the inner loop appends comes from [rest], was not used, and is
    within the threshold of the seed; the used set grows by their ids. *)
Lemma scanNeighbors_general (threshold : R) p rest clusterPoints used :
  ∃ more,
    scanNeighbors threshold p rest clusterPoints used
    = (clusterPoints ++ more, list_to_set (TargetArea.id <$> more) ∪ used)
    ∧ NoDup (TargetArea.id <$> more)
    ∧ more `sublist_of` rest
    ∧ ∀ q, q ∈ more → (TargetArea.id q ∉ used) ∧ (dist q p <= threshold).
Proof.
  revert clusterPoints used.
  induction rest as [|n rest IH]; intros clusterPoints used.
  - exists []. cbn. rewrite app_nil_r. split; [|split; [|split]].
    + f_equal. set_solver.
    + constructor.
    + constructor.
    + intros q Hq. by apply elem_of_nil in Hq.
  - cbn [scanNeighbors].
    destruct (decide (TargetArea.id n ∈ used)) as [Hused|Hnew].
    { destruct (IH clusterPoints used) as (more & Heq & Hnd & Hsub & Hmore).
      exists more. repeat split; try assumption; try (by apply Hmore).
      by apply sublist_cons. }
    destruct (decide (dist n p <= threshold)) as [Hnear|Hfar].
    + destruct (IH (clusterPoints ++ [n]) ({[TargetArea.id n]} ∪ used))
        as (more & Heq & Hnd & Hsub & Hmore).
      exists (n :: more). rewrite Heq, <- app_assoc. cbn. split; [|split; [|split]].
      * f_equal. set_solver.
      * apply NoDup_cons. split; [|exact Hnd].
        intros (q & Hid & Hq)%list_elem_of_fmap. apply Hmore in Hq as [Hq _].
        apply Hq. rewrite <- Hid. set_solver.
      * by apply sublist_skip.
      * intros q [->|Hq]%elem_of_cons; [by split|].
        apply Hmore in Hq as [Hq Hd]. split; [set_solver|exact Hd].
    + destruct (IH clusterPoints used) as (more & Heq & Hnd & Hsub & Hmore).
      exists more. repeat split; try assumption; try (by apply Hmore).
      by apply sublist_cons.
Qed.


Lemma seeds_clusterLoop_sublist (threshold : R) l used :
  seeds (clusterLoop threshold l used) `sublist_of` l.
Proof.
  revert used. induction l as [|p rest IH]; intros used; cbn [clusterLoop].
  - constructor.
  - destruct (decide (TargetArea.id p ∈ used)); [by apply sublist_cons|].
    destruct (scanNeighbors_general threshold p rest [p] ({[TargetArea.id p]} ∪ used))
      as (more & Heq & _).
    rewrite Heq. cbn. by apply sublist_skip.
Qed.

Lemma length_seeds_clusterLoop (threshold : R) l used :
  length (seeds (clusterLoop threshold l used)) = length (clusterLoop threshold l used).
Proof.
  revert used. induction l as [|p rest IH]; intros used; cbn [clusterLoop]; [reflexivity|].
  destruct (decide (TargetArea.id p ∈ used)); [apply IH|].
  destruct (scanNeighbors_general threshold p rest [p] ({[TargetArea.id p]} ∪ used))
    as (more & Heq & _).
  rewrite Heq. cbn. f_equal. apply IH.
Qed.

Lemma StronglySorted_sublist {A} (R : relation A) (l1 l2 : list A) :
  l1 `sublist_of` l2 → StronglySorted R l2 → StronglySorted R l1.
Proof.
  induction 1 as [|x l1 l2 Hsub IH|x l1 l2 Hsub IH]; intros Hs.
  - constructor.
  - apply StronglySorted_cons in Hs as [Hall Hs]. constructor; [by apply IH|].
    rewrite Forall_forall in Hall |- *. intros y Hy. apply Hall.
    by eapply elem_of_sublist.
  - apply StronglySorted_cons in Hs as [_ Hs]. by apply IH.
Qed.

End ClusterShape.


(** X11.  The clusters come out in ascending order of their seed's x: the
    seeds are a subsequence of the sorted input.  There is one seed per
    cluster, and never more clusters than points. *)
Theorem clusters_seeds_ascending :
  ∀ (targetAreas : list TargetArea.t) (w : R),
  seeds (clusters targetAreas w) `sublist_of` sortByX targetAreas
  ∧ StronglySorted leX (seeds (clusters targetAreas w))
  ∧ length (seeds (clusters targetAreas w)) = length (clusters targetAreas w)
  ∧ (length (clusters targetAreas w) <= length targetAreas)%nat.
Proof.
  intros targetAreas w. unfold clusters. cbv zeta.
  pose proof (seeds_clusterLoop_sublist (w * 0.08) (sortByX targetAreas) ∅) as Hsub.
  split; [exact Hsub|]. split; [|split].
  - eapply StronglySorted_sublist; [exact Hsub | apply sortByX_sorted].
  - apply length_seeds_clusterLoop.
  - rewrite <- length_seeds_clusterLoop.
    rewrite <- (Permutation_length (sortByX_Permutation targetAreas)).
    by apply sublist_length.
Qed.


Section ClusterIds.

Implicit Types (p q : TargetArea.t) (l rest : list TargetArea.t) (used : gset Z).

(** The outer loop on any list, duplicate ids or not: the points handed out
    carry distinct ids, come from the list with an id that was not used,
    and every unused id of the list is handed out. *)
Lemma clusterLoop_ids (threshold : R) l used :
  NoDup (TargetArea.id <$> concat (Cluster.points <$> clusterLoop threshold l used))
  ∧ (∀ q, q ∈ concat (Cluster.points <$> clusterLoop threshold l used) →
       q ∈ l ∧ TargetArea.id q ∉ used)
  ∧ (∀ q, q ∈ l → TargetArea.id q ∉ used →
       TargetArea.id q
         ∈ TargetArea.id <$> concat (Cluster.points <$> clusterLoop threshold l used)).
Proof.
  revert used. induction l as [|p rest IH]; intros used; cbn [clusterLoop].
  - cbn. split; [constructor|]. split; intros q Hq; by apply elem_of_nil in Hq.
  - destruct (decide (TargetArea.id p ∈ used)) as [Hused|Hnew].
    { destruct (IH used) as (Hnd & Hmem & Hcov). split; [exact Hnd|]. split.
      - intros q Hq. destruct (Hmem q Hq). split; [by right|assumption].
      - intros q [->|Hq]%elem_of_cons Hq'; [contradiction|]. by apply Hcov. }
    destruct (scanNeighbors_general threshold p rest [p] ({[TargetArea.id p]} ∪ used))
      as (more & Heq & Hndm & Hsub & Hmore).
    rewrite Heq.
    set (used' := list_to_set (TargetArea.id <$> more) ∪ ({[TargetArea.id p]} ∪ used)).
    destruct (IH used') as (Hnd & Hmem & Hcov).
    set (M' := concat (Cluster.points <$> clusterLoop threshold rest used')) in *.
    rewrite fmap_cons. cbn [concat mkCluster Cluster.points app].
    assert (Hmore_id : ∀ i, i ∈ TargetArea.id <$> more → i ∈ used' ∧ i ≠ TargetArea.id p).
    { intros i (q & -> & Hq)%list_elem_of_fmap. split.
      - subst used'. apply elem_of_union_l, elem_of_list_to_set. by apply list_elem_of_fmap_2.
      - destruct (Hmore q Hq) as [Hq' _]. set_solver. }
    assert (HM'_id : ∀ i, i ∈ TargetArea.id <$> M' → i ∉ used').
    { intros i (q & -> & Hq)%list_elem_of_fmap. by apply Hmem. }
    split; [|split].
    + rewrite fmap_cons, fmap_app. apply NoDup_cons. split.
      * rewrite elem_of_app. intros [Hin|Hin].
        -- by apply Hmore_id in Hin as [_ Hne].
        -- apply HM'_id in Hin. apply Hin. subst used'. set_solver.
      * apply NoDup_app. split; [exact Hndm|]. split; [|exact Hnd].
        intros i Hi Hi'. apply Hmore_id in Hi as [Hi _]. by apply HM'_id in Hi'.
    + intros q [->|[Hq|Hq]%elem_of_app]%elem_of_cons.
      * split; [by left|exact Hnew].
      * destruct (Hmore q Hq) as [Hq' _]. split; [right; by eapply elem_of_sublist|set_solver].
      * destruct (Hmem q Hq) as [Hq1 Hq2]. split; [by right|]. subst used'. set_solver.
    + intros q Hq Hq'. rewrite fmap_cons, fmap_app.
      apply elem_of_cons in Hq as [->|Hq]; [by left|].
      destruct (decide (TargetArea.id q ∈ used')) as [Hin|Hout].
      * subst used'. apply elem_of_union in Hin as [Hin|Hin].
        -- right. apply elem_of_app. left. by apply elem_of_list_to_set in Hin.
        -- apply elem_of_union in Hin as [Hin|Hin]; [|contradiction].
           apply elem_of_singleton in Hin. rewrite Hin. by left.
      * right. apply elem_of_app. right. by apply Hcov.
Qed.


Lemma filter_all {A} (P : A → Prop) `{!∀ x, Decision (P x)} (l : list A) :
  (∀ x, x ∈ l → P x) → filter P l = l.
Proof.
  induction l as [|a l IH]; intros Hall; [reflexivity|].
  rewrite filter_cons_True by (apply Hall; by left).
  f_equal. apply IH. intros x Hx. apply Hall. by right.
Qed.



End ClusterIds.

(** X12.  With or without duplicate ids: the points handed out to the
    clusters are points of the input, carry pairwise distinct ids, and carry
    exactly the ids of the input; a point whose id is already taken is left
    out, so the clusters hold at most as many points as the input. *)
Theorem clusters_ids :
  ∀ (targetAreas : list TargetArea.t) (w : R),
  let members := concat (Cluster.points <$> clusters targetAreas w) in
  NoDup (TargetArea.id <$> members)
  ∧ (∀ q, q ∈ members → q ∈ targetAreas)
  ∧ (∀ i, i ∈ TargetArea.id <$> members ↔ i ∈ TargetArea.id <$> targetAreas)
  ∧ (length members <= length targetAreas)%nat.
Proof.
  intros targetAreas w members. subst members. unfold clusters. cbv zeta.
  destruct (clusterLoop_ids (w * 0.08) (sortByX targetAreas) ∅) as (Hnd & Hmem & Hcov).
  set (members := concat (Cluster.points <$> clusterLoop (w * 0.08) (sortByX targetAreas) ∅)) in *.
  assert (Hin : ∀ q, q ∈ members → q ∈ targetAreas).
  { intros q Hq. rewrite <- (sortByX_Permutation targetAreas). by apply Hmem. }
  split; [exact Hnd|]. split; [exact Hin|]. split.
  - intros i. split.
    + intros (q & -> & Hq)%list_elem_of_fmap. by apply list_elem_of_fmap_2, Hin.
    + intros (q & -> & Hq)%list_elem_of_fmap. apply Hcov.
      * by rewrite (sortByX_Permutation targetAreas).
      * apply not_elem_of_empty.
  - apply submseteq_length, NoDup_submseteq; [|exact Hin].
    by apply (NoDup_fmap_1 TargetArea.id).
Qed.






(** ** Density under filtering *)

Lemma influence_le_probability (cx cy : R) (target : TargetArea.t) :
  0 <= TargetArea.probability target →
  0 <= influence cx cy target <= TargetArea.probability target.
Proof.
  intros Hp. rewrite influence_eq.
  set (d2 := (cx - TargetArea.x target) ^ 2 + (cy - TargetArea.y target) ^ 2).
  assert (Hd2 : 0 <= d2).
  { subst d2. pose proof (pow2_ge_0 (cx - TargetArea.x target)).
    pose proof (pow2_ge_0 (cy - TargetArea.y target)). lra. }
  pose proof (exp_pos (- d2 / 100)) as Hpos.
  assert (Hle : exp (- d2 / 100) <= 1).
  { rewrite <- exp_0. destruct (Req_dec d2 0) as [->|Hne].
    - replace (- 0 / 100) with 0 by field. lra.
    - left. apply exp_increasing. lra. }
  split; nra.
Qed.

Lemma sumR_sublist (f : TargetArea.t → R) (l1 l2 : list TargetArea.t) :
  l1 `sublist_of` l2 → Forall (fun t => 0 <= f t) l2 →
  sumR (map f l1) <= sumR (map f l2).
Proof.
  unfold sumR. induction 1 as [|t l1 l2 Hsub IH|t l1 l2 Hsub IH]; intros Hall; cbn.
  - lra.
  - apply Forall_cons in Hall as [_ Hall]. specialize (IH Hall). lra.
  - apply Forall_cons in Hall as [Ht Hall]. specialize (IH Hall). lra.
Qed.

Lemma sumR_le (f g : TargetArea.t → R) (l : list TargetArea.t) :
  Forall (fun t => f t <= g t) l → sumR (map f l) <= sumR (map g l).
Proof.
  unfold sumR. induction 1 as [|t l Ht _ IH]; cbn; lra.
Qed.

(** X15.  With non-negative probabilities, a cell fed a sub-list of the
    targets (what a filter lets through) is never hotter than the cell fed
    all of them, and no cell is hotter than the sum of the probabilities. *)
Theorem cellIntensity_sublist :
  ∀ (shown targetAreas : list TargetArea.t) (cx cy : R),
  shown `sublist_of` targetAreas →
  Forall (fun p => 0 <= TargetArea.probability p) targetAreas →
  cellIntensity shown cx cy <= cellIntensity targetAreas cx cy
  ∧ cellIntensity targetAreas cx cy <= sumR (TargetArea.probability <$> targetAreas).
Proof.
  intros shown targetAreas cx cy Hsub Hprob.
  unfold cellIntensity. cbv zeta. rewrite !fold_left_add_sumR, !Rplus_0_l.
  assert (Hinf : Forall (fun t => 0 <= influence cx cy t) targetAreas).
  { eapply Forall_impl; [exact Hprob|]. intros t Ht. by apply influence_le_probability. }
  split.
  - apply Rle_min_compat_r. by apply sumR_sublist.
  - etrans; [apply Rmin_l|]. apply (sumR_le (influence cx cy) TargetArea.probability).
    eapply Forall_impl; [exact Hprob|]. intros t Ht. by apply influence_le_probability.
Qed.

Lemma cellIntensity_sublist_witness :
  cellIntensity [point 1 10 10] 10 10 <= cellIntensity [point 1 10 10; point 2 12 11] 10 10
  ∧ cellIntensity [point 1 10 10; point 2 12 11] 10 10
    <= sumR (TargetArea.probability <$> [point 1 10 10; point 2 12 11]).
Proof.
  apply cellIntensity_sublist.
  - apply sublist_skip, sublist_cons, sublist_nil.
  - repeat constructor; cbn; lra.
Defined.

(** ** Editing *)

Lemma find_update (i : Z) (newDescription : string) (l : list TargetArea.t) :
  List.find (fun t => bool_decide (TargetArea.id t = i))
    (map (fun target => if decide (TargetArea.id target = i)
                        then withDescription target newDescription else target) l)
  = (fun t => withDescription t newDescription)
      <$> List.find (fun t => bool_decide (TargetArea.id t = i)) l.
Proof.
  induction l as [|t l IH]; [reflexivity|]. cbn [map List.find].
  destruct (decide (TargetArea.id t = i)) as [Heq|Hne].
  - cbn [withDescription TargetArea.id]. rewrite !bool_decide_eq_true_2 by exact Heq.
    reflexivity.
  - rewrite !bool_decide_eq_false_2 by exact Hne. exact IH.
Qed.

(** X16.  Save, seen from both ends.  With target [t] selected by id [i],
    [handleSave] makes exactly one call [(i, buffer)] and leaves edit mode;
    once the owner has applied it, looking up [i] in the new target list
    gives [t] with the buffer as description, and a later cancel keeps that
    text. *)
Theorem handleSave_round_trip :
  ∀ (r : PredictionResult.t) (i : Z) (t : TargetArea.t) (st : EditState.t),
  selectedTarget (PredictionResult.targetAreas r) (Some i) = Some t →
  let buffer := EditState.editDescription st in
  let st' := (handleSave (Some t) st).1 in
  (handleSave (Some t) st).2 = [(i, buffer)]
  ∧ EditState.isEditing st' = false
  ∧ ∃ r', handleUpdateTargetDescription i buffer (Some r) = Some r'
      ∧ selectedTarget (PredictionResult.targetAreas r') (Some i)
        = Some (withDescription t buffer)
      ∧ handleCancel (selectedTarget (PredictionResult.targetAreas r') (Some i)) st' = st'.
Proof.
  intros r i t st Hsel buffer st'. cbn [selectedTarget] in Hsel.
  assert (Hid : TargetArea.id t = i).
  { apply find_some in Hsel as [_ Hid]. by apply bool_decide_eq_true in Hid. }
  split; [cbn; by rewrite Hid|]. split; [reflexivity|].
  eexists. split; [reflexivity|]. cbn [PredictionResult.targetAreas selectedTarget].
  rewrite find_update, Hsel. split; reflexivity.
Qed.

Lemma handleSave_round_trip_witness :
  (handleSave (Some (point 2 12 11)) (EditState.mk true "new text")).2
  = [(2%Z, "new text")].
Proof.
  assert (Hsel : selectedTarget (PredictionResult.targetAreas sampleResult) (Some 2%Z)
                 = Some (point 2 12 11)).
  { unfold sampleResult.
    cbn [selectedTarget PredictionResult.targetAreas List.find point TargetArea.id].
    rewrite bool_decide_eq_false_2 by discriminate.
    rewrite bool_decide_eq_true_2 by reflexivity. reflexivity. }
  exact (proj1 (handleSave_round_trip sampleResult 2 (point 2 12 11)
                  (EditState.mk true "new text") Hsel)).
Defined.

(** X17.  A key press in the editor relays at most one edit, and only for
    Enter with the meta or control key and a selected target, with that
    target's id and the buffer, leaving edit mode.  Escape relays nothing,
    leaves edit mode and puts the stored description back in the buffer.
    Enter with a selection that has no target relays nothing and stays in
    edit mode. *)
Theorem handleKeyDown_calls :
  ∀ (e : KeyboardEvent.t) (selected : option TargetArea.t) (st : EditState.t),
  let st' := (handleKeyDown e selected st).1 in
  let calls := (handleKeyDown e selected st).2 in
  (calls = []
   ∨ ∃ t, selected = Some t
       ∧ KeyboardEvent.key e = "Enter"
       ∧ (KeyboardEvent.metaKey e = true ∨ KeyboardEvent.ctrlKey e = true)
       ∧ calls = [(TargetArea.id t, EditState.editDescription st)]
       ∧ st' = EditState.mk false (EditState.editDescription st))
  ∧ (KeyboardEvent.key e = "Escape" →
     calls = []
     ∧ EditState.isEditing st' = false
     ∧ EditState.editDescription st'
       = from_option TargetArea.description (EditState.editDescription st) selected)
  ∧ (KeyboardEvent.key e = "Enter" → selected = None → calls = [] ∧ st' = st).
Proof.
  intros e selected st st' calls. subst st' calls. unfold handleKeyDown.
  destruct (decide (KeyboardEvent.key e = "Enter")) as [Hkey|Hkey].
  - rewrite (bool_decide_eq_true_2 _ Hkey).
    rewrite (bool_decide_eq_false_2 (KeyboardEvent.key e = "Escape"))
      by (rewrite Hkey; discriminate).
    destruct (KeyboardEvent.metaKey e || KeyboardEvent.ctrlKey e) eqn:Hmod; cbn [andb].
    + apply orb_true_iff in Hmod. split; [|split].
      * destruct selected as [t|]; [right; exists t; by repeat split | by left].
      * rewrite Hkey. discriminate.
      * intros _ ->. by split.
    + split; [by left|]. split; [rewrite Hkey; discriminate | by split].
  - rewrite (bool_decide_eq_false_2 _ Hkey). cbn [andb].
    destruct (decide (KeyboardEvent.key e = "Escape")) as [Hesc|Hesc].
    + rewrite (bool_decide_eq_true_2 _ Hesc). cbn. split; [by left|].
      split; [|contradiction]. intros _. split; [reflexivity|]. split; [reflexivity|].
      by destruct selected.
    + rewrite (bool_decide_eq_false_2 _ Hesc). cbn. split; [by left|].
      split; [contradiction|contradiction].
Qed.

(** ** Tooltip placement *)

(** X18.  Tooltip placement inverts the pixel-to-data mapping: the pixel at
    the tooltip's percentage of the container maps back to the cluster's
    centroid, and the percentage is between 0 and 100 exactly when the
    centroid is inside the view box on that axis. *)
Theorem getTooltipPosition_round_trip :
  ∀ (width height : R) (viewBox : ViewBox.t) (c : Cluster.t),
  width ≠ 0 → height ≠ 0 → 0 < ViewBox.w viewBox → 0 < ViewBox.h viewBox →
  let left := (getTooltipPosition viewBox c).1 in
  let top := (getTooltipPosition viewBox c).2 in
  svgX width viewBox (left / 100 * width) = Cluster.x c
  ∧ svgY height viewBox (top / 100 * height) = Cluster.y c
  ∧ (0 <= left <= 100
     ↔ ViewBox.x viewBox <= Cluster.x c <= ViewBox.x viewBox + ViewBox.w viewBox)
  ∧ (0 <= top <= 100
     ↔ ViewBox.y viewBox <= Cluster.y c <= ViewBox.y viewBox + ViewBox.h viewBox).
Proof.
  intros width height viewBox c Hw Hh Hvw Hvh left top.
  subst left top. unfold getTooltipPosition, svgX, svgY. cbn [fst snd].
  set (cx := Cluster.x c). set (cy := Cluster.y c).
  set (vx := ViewBox.x viewBox). set (vy := ViewBox.y viewBox).
  set (vw := ViewBox.w viewBox) in *. set (vh := ViewBox.h viewBox) in *.
  assert (Hl : (cx - vx) / vw * 100 = 100 * / vw * (cx - vx)) by (field; lra).
  assert (Ht : (cy - vy) / vh * 100 = 100 * / vh * (cy - vy)) by (field; lra).
  assert (Hiw : 0 < / vw) by (by apply Rinv_0_lt_compat).
  assert (Hih : 0 < / vh) by (by apply Rinv_0_lt_compat).
  assert (Hvw1 : / vw * vw = 1) by (field; lra).
  assert (Hvh1 : / vh * vh = 1) by (field; lra).
  split; [field; lra|]. split; [field; lra|].
  rewrite Hl, Ht. split; split; intros [H1 H2]; split; nra.
Qed.

Lemma getTooltipPosition_round_trip_witness :
  svgX 600 (ViewBox.mk (-25) 0 150 100)
    ((getTooltipPosition (ViewBox.mk (-25) 0 150 100) (singleCluster (point 1 10 10))).1
     / 100 * 600)
  = Cluster.x (singleCluster (point 1 10 10)).
Proof.
  apply (getTooltipPosition_round_trip 600 400 (ViewBox.mk (-25) 0 150 100)
           (singleCluster (point 1 10 10))); cbn; lra.
Defined.

(** ** Uploaded files *)

Lemma handleRemoveFile_fresh {File : Type} (i : string) (files : list (UploadedFile.t File)) :
  (∀ f, f ∈ files → UploadedFile.id f ≠ i) → handleRemoveFile i files = files.
Proof. intros Hfresh. unfold handleRemoveFile. by apply filter_all. Qed.

(** X19.  Removing the id of a link just added undoes the addition, and
    removes whatever else carried that id; with a fresh id the list is the
    one before the addition.  Removing another id commutes with adding the
    link. *)
Theorem handleRemoveFile_handleAddLink :
  ∀ (File : Type) (i url : string) (category : FileCategory)
    (files : list (UploadedFile.t File)),
  handleRemoveFile i (handleAddLink i url category files) = handleRemoveFile i files
  ∧ ((∀ f, f ∈ files → UploadedFile.id f ≠ i) →
     handleRemoveFile i (handleAddLink i url category files) = files)
  ∧ (∀ j, j ≠ i →
     handleRemoveFile j (handleAddLink i url category files)
     = handleAddLink i url category (handleRemoveFile j files)).
Proof.
  intros File i url category files.
  assert (Heq : handleRemoveFile i (handleAddLink i url category files)
                = handleRemoveFile i files).
  { unfold handleRemoveFile, handleAddLink. cbv zeta. rewrite filter_app.
    rewrite (filter_cons_False _ _ []) by (cbn; intros H; by apply H).
    rewrite filter_nil. apply app_nil_r. }
  split; [exact Heq|]. split.
  - intros Hfresh. rewrite Heq. by apply handleRemoveFile_fresh.
  - intros j Hj. unfold handleRemoveFile, handleAddLink. cbv zeta. rewrite filter_app.
    rewrite (filter_cons_True _ _ []) by (cbn; congruence). by rewrite filter_nil.
Qed.

(** ** Dashboard filters *)

Lemma insertString_Permutation (s : string) (l : list string) : insertString s l ≡ₚ s :: l.
Proof.
  induction l as [|s' l IH]; cbn; [reflexivity|].
  destruct (String.leb s s'); [reflexivity|]. rewrite IH. apply Permutation_swap.
Qed.

Lemma sortStrings_Permutation (l : list string) : sortStrings l ≡ₚ l.
Proof.
  induction l as [|s l IH]; cbn; [reflexivity|].
  rewrite insertString_Permutation. by rewrite IH.
Qed.

Lemma insertString_Sorted (s : string) (l : list string) :
  Sorted (fun a b => String.leb a b = true) l →
  Sorted (fun a b => String.leb a b = true) (insertString s l).
Proof.
  induction 1 as [|s' l Hl IH Hhd]; cbn.
  - repeat constructor.
  - destruct (String.leb s s') eqn:Hle.
    + constructor; [by constructor|]. by constructor.
    + constructor; [exact IH|].
      destruct l as [|s'' l]; cbn.
      * constructor. destruct (String.leb_total s s') as [H|H]; [congruence|exact H].
      * destruct (String.leb s s''); constructor.
        -- destruct (String.leb_total s s') as [H|H]; [congruence|exact H].
        -- by inv Hhd.
Qed.

Lemma sortStrings_Sorted (l : list string) :
  Sorted (fun a b => String.leb a b = true) (sortStrings l).
Proof.
  induction l as [|s l IH]; cbn; [constructor|]. by apply insertString_Sorted.
Qed.

Lemma sublist_optional {A} (b : bool) (a : A) (l1 l2 : list A) :
  l1 `sublist_of` l2 → (if b then [a] else []) ++ l1 `sublist_of` a :: l2.
Proof. intros H. destruct b; cbn; [by apply sublist_skip | by apply sublist_cons]. Qed.

Section TagFacts.

Variable toLowerCase : string → string.
Variable includes : string → string → bool.

(** The tag list of a target, whatever the two string methods answer. *)
Lemma getTargetTags_facts :
  ∀ target : TargetArea.t,
  let tags := getTargetTags toLowerCase includes target in
  tags ≠ []
  ∧ NoDup tags
  ∧ Sorted (fun a b => String.leb a b = true) tags
  ∧ tags ⊆ ["Argillic"; "Breccia"; "Phyllic"; "Potassic"; "Propylitic"; "Silicic/Qtz";
            "Structural"; "Unclassified"; "Veining"]
  ∧ ("Unclassified" ∈ tags → tags = ["Unclassified"]).
Proof.
  intros target. unfold getTargetTags. cbv zeta.
  match goal with
  | |- context [bool_decide (length ?l = 0%nat)] => set (found := l)
  end.
  set (known := ["Potassic"; "Phyllic"; "Argillic"; "Propylitic"; "Silicic/Qtz";
                 "Veining"; "Breccia"; "Structural"]).
  assert (Hsub : found `sublist_of` known).
  { subst found known. repeat apply sublist_optional.
    match goal with
    | |- (if ?b then _ else _) `sublist_of` _ => destruct b
    end; repeat constructor. }
  assert (Hknown : NoDup known ∧ ("Unclassified" ∉ known)
                   ∧ known ⊆ ["Argillic"; "Breccia"; "Phyllic"; "Potassic"; "Propylitic";
                              "Silicic/Qtz"; "Structural"; "Unclassified"; "Veining"]).
  { apply (bool_decide_unpack _). vm_compute. exact I. }
  destruct Hknown as (Hnd & Hun & Hall).
  clearbody found known.
  destruct found as [|tag found].
  - cbn. split; [discriminate|]. split; [apply NoDup_singleton|].
    split; [repeat constructor|]. split; [|done].
    intros s ->%list_elem_of_singleton. apply (bool_decide_unpack _). vm_compute. exact I.
  - rewrite bool_decide_eq_false_2 by discriminate.
    pose proof (sortStrings_Permutation (tag :: found)) as Hperm.
    split; [|split; [|split; [|split]]].
    + intros Hnil. rewrite Hnil in Hperm. by apply Permutation_nil_cons in Hperm.
    + rewrite Hperm. by eapply sublist_NoDup.
    + apply sortStrings_Sorted.
    + intros s Hs. rewrite Hperm in Hs. apply Hall. by eapply elem_of_sublist.
    + intros Hin. rewrite Hperm in Hin. exfalso. apply Hun. by eapply elem_of_sublist.
Qed.

(** X20.  Whatever the description and reasoning, the tag list of a target
    is never empty, has no duplicate, is in ascending order, holds only the
    nine known tags, and holds [Unclassified] only as its sole tag. *)
Theorem getTargetTags_shape :
  ∀ target : TargetArea.t,
  let tags := getTargetTags toLowerCase includes target in
  tags ≠ []
  ∧ NoDup tags
  ∧ Sorted (fun a b => String.leb a b = true) tags
  ∧ tags ⊆ ["Argillic"; "Breccia"; "Phyllic"; "Potassic"; "Propylitic"; "Silicic/Qtz";
            "Structural"; "Unclassified"; "Veining"]
  ∧ ("Unclassified" ∈ tags → tags = ["Unclassified"]).
Proof.
  intros target. exact (getTargetTags_facts target).
Qed.

(** X21.  The targets handed to the heatmap are a sub-list of the result's
    targets, so unique ids stay unique; with the three probability filters
    on and no tag disabled it is the whole list; and a target is left out
    only if its probability category is switched off or every one of its
    tags is disabled. *)
Theorem displayedTargets_filter :
  ∀ (targetAreas : list TargetArea.t) (activeFilters : ActiveFilters.t)
    (disabledTags : gset string),
  let shown := displayedTargets toLowerCase includes targetAreas activeFilters disabledTags in
  shown `sublist_of` targetAreas
  ∧ (NoDup (TargetArea.id <$> targetAreas) → NoDup (TargetArea.id <$> shown))
  ∧ displayedTargets toLowerCase includes targetAreas allFilters ∅ = targetAreas
  ∧ (∀ t, t ∈ targetAreas → t ∉ shown →
       activeFilter activeFilters (getProbabilityCategory (TargetArea.probability t)) = false
       ∨ ∀ tag, tag ∈ getTargetTags toLowerCase includes t → tag ∈ disabledTags).
Proof.
  intros targetAreas activeFilters disabledTags shown. subst shown. unfold displayedTargets.
  split; [apply sublist_filter|]. split; [|split].
  - intros Hnd. eapply sublist_NoDup; [exact Hnd|].
    apply (fmap_sublist TargetArea.id), sublist_filter.
  - apply filter_all. intros t _. unfold isDisplayed. cbv zeta.
    replace (activeFilter allFilters (getProbabilityCategory (TargetArea.probability t)))
      with true by (by destruct (getProbabilityCategory _)).
    cbn [negb].
    destruct (getTargetTags_facts t) as [Hne _]. cbv zeta in Hne.
    destruct (getTargetTags toLowerCase includes t) as [|tag tags]; [done|].
    cbn [existsb]. rewrite bool_decide_eq_true_2 by apply not_elem_of_empty. reflexivity.
  - intros t Ht Hhid.
    assert (Hd : isDisplayed toLowerCase includes activeFilters disabledTags t ≠ true).
    { intros Hd. apply Hhid. apply list_elem_of_filter. by split. }
    unfold isDisplayed in Hd. cbv zeta in Hd.
    destruct (activeFilter activeFilters (getProbabilityCategory (TargetArea.probability t)));
      [right|by left].
    cbn [negb] in Hd. intros tag Htag.
    destruct (decide (tag ∈ disabledTags)) as [|Hout]; [assumption|].
    exfalso. apply Hd. apply existsb_exists. exists tag. split.
    + by apply list_elem_of_In.
    + by apply bool_decide_eq_true_2.
Qed.

End TagFacts.

(** X22.  Toggling a tag flips that tag and no other in the disabled set,
    toggling a probability filter flips that filter and no other, and
    toggling the same one twice restores the filters. *)
Theorem toggle_twice :
  ∀ (tag : string) (disabledTags : gset string) (key : ProbabilityCategory)
    (activeFilters : ActiveFilters.t),
  toggleTag tag (toggleTag tag disabledTags) = disabledTags
  ∧ (tag ∈ toggleTag tag disabledTags ↔ tag ∉ disabledTags)
  ∧ (∀ other, other ≠ tag → (other ∈ toggleTag tag disabledTags ↔ other ∈ disabledTags))
  ∧ toggleFilter key (toggleFilter key activeFilters) = activeFilters
  ∧ activeFilter (toggleFilter key activeFilters) key = negb (activeFilter activeFilters key)
  ∧ (∀ other, other ≠ key →
       activeFilter (toggleFilter key activeFilters) other = activeFilter activeFilters other).
Proof.
  intros tag disabledTags key activeFilters.
  split; [|split; [|split; [|split; [|split]]]].
  - unfold toggleTag. destruct (decide (tag ∈ disabledTags)) as [Hin|Hout].
    + rewrite decide_False by set_solver.
      apply set_eq. intros x. destruct (decide (x = tag)); set_solver.
    + rewrite decide_True by set_solver. set_solver.
  - unfold toggleTag. destruct (decide (tag ∈ disabledTags)); set_solver.
  - intros other Hne. unfold toggleTag. destruct (decide (tag ∈ disabledTags)); set_solver.
  - destruct activeFilters as [h m l], key; cbn; by rewrite negb_involutive.
  - by destruct key.
  - intros other Hne. by destruct key, other.
Qed.
